(** * RegexLibrary: a shallow embedding of [src/regexUtils.js]

    The library is a set of pure functions over JavaScript strings, each of
    them a handful of regular-expression tests, matches and replacements.
    The embedding therefore has three layers:

    - characters and the character classes the patterns mention;
    - the regular expressions of the source as values of [regex], run by a
      backtracking matcher in continuation-passing style (the shape of the
      ECMAScript matcher), together with the string methods the source
      calls ([test], [match], [replace], [trim], [slice], ...);
    - the eight exported functions, written as the source writes them.

    A JavaScript string is a sequence of UTF-16 code units.  Here a code
    unit is an [ascii], i.e. a value 0..255, read as the code point of the
    same number (Basic Latin and Latin-1 Supplement).  The character
    classes ([\s], [\d], [\p{L}], [\p{Lu}], [\p{Ll}], [\p{Number}], [\b],
    [.]) are the ECMAScript/Unicode ones restricted to that range.  The
    case conversions [toUpperCase]/[toLowerCase] convert the letters A-Z
    and a-z and are the JavaScript ones on strings of ASCII characters;
    statements that depend on them say so. *)

From Stdlib Require Import Ascii String List Bool Arith PeanoNat Lia.
Import ListNotations.

Set Implicit Arguments.

(** ** Strings and values *)

Definition jsstring := list ascii.

Definition str (s : string) : jsstring := list_ascii_of_string s.

(** What a caller may pass where the source expects a string: a string, or
    anything else ([typeof v !== 'string']). *)
Inductive value :=
| VString (s : jsstring)
| VOther.

Definition jsstring_eqb (a b : jsstring) : bool :=
  if list_eq_dec ascii_dec a b then true else false.

(** ** Character classes *)

Definition code (c : ascii) : nat := nat_of_ascii c.

Definition in_range (lo hi : nat) (c : ascii) : bool :=
  (lo <=? code c) && (code c <=? hi).

Definition is_char (a c : ascii) : bool := Ascii.eqb a c.

Definition one_of (s : string) (c : ascii) : bool :=
  existsb (is_char c) (str s).

Definition cls_or (f g : ascii -> bool) (c : ascii) : bool := f c || g c.
Definition cls_not (f : ascii -> bool) (c : ascii) : bool := negb (f c).

(** [\d] and [[0-9]]. *)
Definition is_digit : ascii -> bool := in_range 48 57.
(** [[A-Z]], [[a-z]], [[a-zA-Z]]. *)
Definition is_AZ : ascii -> bool := in_range 65 90.
Definition is_az : ascii -> bool := in_range 97 122.
Definition is_alpha : ascii -> bool := cls_or is_az is_AZ.
(** [\w], the class behind [\b]. *)
Definition is_word (c : ascii) : bool :=
  is_alpha c || is_digit c || is_char "_" c.
(** [\s]: TAB, LF, VT, FF, CR, SP and NBSP (the members below U+0100). *)
Definition is_space (c : ascii) : bool :=
  in_range 9 13 c || (code c =? 32) || (code c =? 160).
(** The characters [.] does not match, among those up to U+00FF: LF and CR.
    (The other two, U+2028 and U+2029, are no characters of the strings of
    this development.) *)
Definition is_line_terminator (c : ascii) : bool :=
  (code c =? 10) || (code c =? 13).
Definition dot : ascii -> bool := cls_not is_line_terminator.
(** [\p{Lu}]: A-Z, U+00C0-U+00D6, U+00D8-U+00DE. *)
Definition is_Lu (c : ascii) : bool :=
  is_AZ c || in_range 192 214 c || in_range 216 222 c.
(** [\p{Ll}]: a-z, U+00B5, U+00DF-U+00F6, U+00F8-U+00FF. *)
Definition is_Ll (c : ascii) : bool :=
  is_az c || (code c =? 181) || in_range 223 246 c || in_range 248 255 c.
(** [\p{L}] = [\p{Letter}]: the cased letters and U+00AA, U+00BA (Lo). *)
Definition is_L (c : ascii) : bool :=
  is_Lu c || is_Ll c || (code c =? 170) || (code c =? 186).
(** [\p{Number}]: 0-9, U+00B2, U+00B3, U+00B9, U+00BC-U+00BE. *)
Definition is_Number (c : ascii) : bool :=
  is_digit c || in_range 178 179 c || (code c =? 185) || in_range 188 190 c.

(** ** Regular expressions

    The patterns of the source only ever quantify a single character class,
    except for [?], so the syntax has a constructor for each of the two.
    What [?] is applied to never matches the empty string in these
    patterns, so the matcher need not reject an empty iteration. *)

Inductive regex :=
| Chr (cs : ascii -> bool)                          (* one character of a class *)
| Rep (cs : ascii -> bool) (lo : nat) (hi : option nat) (* greedy [cs{lo,hi}] *)
| Opt (r : regex)                                   (* greedy [r?] *)
| Seq (r1 r2 : regex)
| Alt (r1 r2 : regex)
| Eps
| Group (n : nat) (r : regex)                       (* capturing group number [n] *)
| Bol                                               (* [^], no [m] flag *)
| Eol                                               (* [$], no [m] flag *)
| WordB                                             (* [\b] *)
| Look (r : regex)                                  (* [(?=r)] *)
| NLook (r : regex)                                 (* [(?!r)] *)
| NLookBehind (cs : ascii -> bool).                 (* [(?<!c)], one character *)

Fixpoint Lit (l : jsstring) : regex :=
  match l with
  | [] => Eps
  | c :: l' => Seq (Chr (is_char c)) (Lit l')
  end.

Definition Star cs := Rep cs 0 None.
Definition Plus cs := Rep cs 1 None.
Definition Between cs lo hi := Rep cs lo (Some hi).
Definition AtLeast cs lo := Rep cs lo None.

Declare Scope regex_scope.
Delimit Scope regex_scope with re.
Bind Scope regex_scope with regex.
Infix ";;" := Seq (at level 40, left associativity) : regex_scope.
Infix "|||" := Alt (at level 50, left associativity) : regex_scope.

(** The matcher state: the input split at the current index (the part
    before it reversed) and the captures made so far. *)
Record state := mkState {
  pre  : list ascii;
  suf  : list ascii;
  caps : list (nat * jsstring)
}.

Definition result := option state.

Definition set_cap (n : nat) (from to : state) : state :=
  mkState (pre to) (suf to)
          ((n, firstn (length (suf from) - length (suf to)) (suf from)) :: caps to).

Fixpoint get_cap (n : nat) (l : list (nat * jsstring)) : option jsstring :=
  match l with
  | [] => None
  | (i, w) :: l' => if i =? n then Some w else get_cap n l'
  end.

Definition hd_is (f : ascii -> bool) (l : list ascii) : bool :=
  match l with
  | c :: _ => f c
  | [] => false
  end.

Definition at_word_boundary (x : state) : bool :=
  xorb (hd_is is_word (pre x)) (hd_is is_word (suf x)).

Definition or_else (a : result) (b : result) : result :=
  match a with
  | Some y => Some y
  | None => b
  end.

(** Greedy repetition of a class (ECMAScript's RepeatMatcher): once the
    upper bound is used up, continue; otherwise take one more character of
    the class, and fall back to the continuation once [lo] has been
    reached. *)
Fixpoint rep (cs : ascii -> bool) (lo : nat) (hi : option nat)
    (p s : list ascii) (k : list ascii -> list ascii -> result) {struct s} : result :=
  match hi with
  | Some 0 => k p s
  | _ =>
    let more :=
      match s with
      | c :: s' =>
          if cs c then rep cs (Nat.pred lo) (option_map Nat.pred hi) (c :: p) s' k
          else None
      | [] => None
      end in
    match lo with
    | S _ => more
    | 0 => or_else more (k p s)
    end
  end.

Fixpoint m (r : regex) (x : state) (k : state -> result) {struct r} : result :=
  match r with
  | Chr cs =>
      match suf x with
      | c :: s' => if cs c then k (mkState (c :: pre x) s' (caps x)) else None
      | [] => None
      end
  | Rep cs lo hi => rep cs lo hi (pre x) (suf x) (fun p s => k (mkState p s (caps x)))
  | Opt r' => or_else (m r' x k) (k x)
  | Seq r1 r2 => m r1 x (fun y => m r2 y k)
  | Alt r1 r2 => or_else (m r1 x k) (m r2 x k)
  | Eps => k x
  | Group n r' => m r' x (fun y => k (set_cap n x y))
  | Bol => match pre x with [] => k x | _ :: _ => None end
  | Eol => match suf x with [] => k x | _ :: _ => None end
  | WordB => if at_word_boundary x then k x else None
  | Look r' =>
      match m r' x Some with
      | Some y => k (mkState (pre x) (suf x) (caps y))
      | None => None
      end
  | NLook r' =>
      match m r' x Some with
      | Some _ => None
      | None => k x
      end
  | NLookBehind cs => if hd_is cs (pre x) then None else k x
  end.

(** One attempt at the current index. *)
Definition match_here (r : regex) (p s : list ascii) : result :=
  m r (mkState p s []) Some.

(** ** The string and RegExp methods the source calls *)

(** [RegExp.prototype.exec] for a pattern without the [g] flag: the first
    index, from the left, at which an attempt succeeds.  The result holds
    the text before the match (reversed) and the final matcher state. *)
Fixpoint exec_from (r : regex) (p s : list ascii) : option (list ascii * state) :=
  match match_here r p s with
  | Some y => Some (p, y)
  | None =>
      match s with
      | c :: s' => exec_from r (c :: p) s'
      | [] => None
      end
  end.

Definition exec (r : regex) (s : jsstring) : option (list ascii * state) :=
  exec_from r [] s.

(** [regex.test(s)]. *)
Definition test (r : regex) (s : jsstring) : bool :=
  match exec r s with
  | Some _ => true
  | None => false
  end.

(** [s.match(regex)] without [g]: the captures of the first match, if any;
    [get_cap n] then reads [result[n]]. *)
Definition string_match (r : regex) (s : jsstring) : option (list (nat * jsstring)) :=
  match exec r s with
  | Some (_, y) => Some (caps y)
  | None => None
  end.

(** The left-to-right scan behind [match] and [replace] with the [g] flag:
    the text is cut into the matches and the characters between them.  An
    attempt is made at every index that is not inside the previous match;
    after an empty match the scan moves on by one character. *)
Inductive piece :=
| Plain (c : ascii)
| Matched (w : jsstring).

Fixpoint scan (r : regex) (p s : list ascii) (skip : nat) {struct s} : list piece :=
  match skip with
  | S n =>
      match s with
      | c :: s' => scan r (c :: p) s' n
      | [] => []
      end
  | 0 =>
      match match_here r p s with
      | Some y =>
          let n := length s - length (suf y) in
          Matched (firstn n s) ::
            match s with
            | c :: s' =>
                match n with
                | 0 => Plain c :: scan r (c :: p) s' 0
                | S n' => scan r (c :: p) s' n'
                end
            | [] => []
            end
      | None =>
          match s with
          | c :: s' => Plain c :: scan r (c :: p) s' 0
          | [] => []
          end
      end
  end.

(** [s.match(regex) || []] with the [g] flag. *)
Definition match_all (r : regex) (s : jsstring) : list jsstring :=
  flat_map (fun pc => match pc with Plain _ => [] | Matched w => [w] end)
           (scan r [] s 0).

(** What a piece becomes when every match [w] is replaced by [f w]. *)
Definition render (f : jsstring -> jsstring) (pc : piece) : jsstring :=
  match pc with
  | Plain c => [c]
  | Matched w => f w
  end.

(** [s.replace(regex, f)] with the [g] flag; a replacement string is the
    constant function. *)
Definition replace_all (r : regex) (f : jsstring -> jsstring) (s : jsstring) : jsstring :=
  flat_map (render f) (scan r [] s 0).

(** [s.replace(regex, t)] without the [g] flag: the first match only. *)
Definition replace_first (r : regex) (t : jsstring) (s : jsstring) : jsstring :=
  match exec r s with
  | Some (p, y) => rev p ++ t ++ suf y
  | None => s
  end.

Fixpoint drop_while (f : ascii -> bool) (s : jsstring) : jsstring :=
  match s with
  | c :: s' => if f c then drop_while f s' else s
  | [] => []
  end.

(** What is left of [s] once the white space at its end is removed. *)
Fixpoint trim_end (s : jsstring) : jsstring :=
  match s with
  | [] => []
  | c :: s' =>
      match trim_end s' with
      | [] => if is_space c then [] else [c]
      | t => c :: t
      end
  end.

(** [s.trim()]: the white space at both ends is removed. *)
Definition trim (s : jsstring) : jsstring :=
  trim_end (drop_while is_space s).

(** [s.slice(n)] and [s.slice(i, j)], for the non-negative indices the
    source passes. *)
Definition slice_from (n : nat) (s : jsstring) : jsstring := skipn n s.
Definition slice (i j : nat) (s : jsstring) : jsstring := firstn (j - i) (skipn i s).

Definition startsWith (t s : jsstring) : bool :=
  jsstring_eqb (firstn (length t) s) t.

Definition includes (l : list jsstring) (w : jsstring) : bool :=
  existsb (jsstring_eqb w) l.

(** [toUpperCase] and [toLowerCase] on the letters a-z and A-Z.  These are
    the JavaScript conversions on strings of ASCII characters only
    (JavaScript also converts letters beyond U+007F, some of them to
    characters above U+00FF or to two characters); the statements that
    depend on them are made for such strings. *)
Definition upper_char (c : ascii) : ascii :=
  if is_az c then ascii_of_nat (code c - 32) else c.
Definition lower_char (c : ascii) : ascii :=
  if is_AZ c then ascii_of_nat (code c + 32) else c.

Definition toUpperCase (s : jsstring) : jsstring := map upper_char s.
Definition toLowerCase (s : jsstring) : jsstring := map lower_char s.

(** ** [validateEmail] *)

Definition email_local : ascii -> bool :=
  cls_or is_az (cls_or is_AZ (cls_or is_digit (one_of "._%+-"))).
Definition email_domain : ascii -> bool :=
  cls_or is_az (cls_or is_AZ (cls_or is_digit (one_of ".-"))).

(** [/^[a-zA-Z0-9._%+-]{1,64}@[a-zA-Z0-9.-]+\.[a-zA-Z]{2,63}$/] *)
Definition email_regex : regex :=
  (Bol ;; Between email_local 1 64 ;; Chr (is_char "@") ;; Plus email_domain
   ;; Chr (is_char ".") ;; Between is_alpha 2 63 ;; Eol)%re.

Definition validateEmail (email : value) : bool :=
  match email with
  | VOther => false
  | VString [] => false
  | VString s => test email_regex s
  end.

(** ** [validateInternationalPhoneNumber] *)

(** A requirement as the caller sees it.  The objects built on the main
    path also carry the pattern they were tested with ([regex]); the ones
    of the early return do not. *)
Record Requirement := mkReq {
  pattern : option regex;
  message : jsstring;
  met     : bool
}.

Record ValidationResult := mkResult {
  isValid      : bool;
  requirements : list Requirement
}.

Definition every_met (reqs : list Requirement) : bool := forallb met reqs.

Definition set_met (b : bool) (q : Requirement) : Requirement :=
  mkReq (pattern q) (message q) b.
Definition set_pattern (r : regex) (q : Requirement) : Requirement :=
  mkReq (Some r) (message q) (met q).

(** [requirements[i] = f(requirements[i])] for an index that exists. *)
Fixpoint update (i : nat) (f : Requirement -> Requirement) (l : list Requirement) :=
  match l, i with
  | [], _ => []
  | q :: l', 0 => f q :: l'
  | q :: l', S i' => q :: update i' f l'
  end.

Definition met_at (i : nat) (l : list Requirement) : bool :=
  match nth_error l i with
  | Some q => met q
  | None => false
  end.

Definition run_test (q : Requirement) (s : jsstring) : bool :=
  match pattern q with
  | Some r => test r s
  | None => false
  end.

Definition msg_prefix := str "Must include country code (+ or 00)".
Definition msg_length := str "Valid length for the country".
Definition msg_charset := str "Only digits, spaces, hyphens, or parentheses allowed".
Definition msg_country := str "Valid country code (e.g., +1, +254, +44)".
Definition msg_mobile := str "Valid mobile prefix for the country (if applicable)".

(** [[0-9\s\-\(\)]] *)
Definition phone_char : ascii -> bool :=
  cls_or is_digit (cls_or is_space (one_of "-()")).

(** [(\+|00)] *)
Definition plus_or_00 : regex := Group 1 (Chr (is_char "+") ||| Lit (str "00"))%re.

Fixpoint alternatives (l : list jsstring) : regex :=
  match l with
  | [] => Eps
  | [w] => Lit w
  | w :: l' => Alt (Lit w) (alternatives l')
  end.

Definition country_codes : list jsstring :=
  map str ["1"; "254"; "255"; "44"; "91"; "61"; "234"; "55"; "49"; "81"]%string.

(** [/^(\+|00)/] *)
Definition re_prefix : regex := (Bol ;; plus_or_00)%re.
(** [/^(\+|00)[0-9\s\-\(\)]{6,14}[0-9]$/] *)
Definition re_length : regex :=
  (Bol ;; plus_or_00 ;; Between phone_char 6 14 ;; Chr is_digit ;; Eol)%re.
(** [/^(\+|00)[0-9\s\-\(\)]*$/] *)
Definition re_charset : regex := (Bol ;; plus_or_00 ;; Star phone_char ;; Eol)%re.
(** [/^(\+|00)(1|254|255|44|91|61|234|55|49|81)\d/] *)
Definition re_country : regex :=
  (Bol ;; plus_or_00 ;; Group 2 (alternatives country_codes) ;; Chr is_digit)%re.
(** [/.*/] *)
Definition re_anything : regex := Star dot.
(** [/^(\+|00)(\d{1,3})/] *)
Definition re_country_code : regex :=
  (Bol ;; plus_or_00 ;; Group 2 (Between is_digit 1 3))%re.
(** [new RegExp(`^(\\+|00)${countryCode}(${prefixes.join('|')})`)] *)
Definition re_mobile (countryCode : jsstring) (prefixes : list jsstring) : regex :=
  (Bol ;; plus_or_00 ;; Lit countryCode ;; Group 2 (alternatives prefixes))%re.

(** [rules.length] is a number or an array of numbers. *)
Inductive length_rule :=
| Exactly (n : nat)
| OneOf (l : list nat).

Record CountryRule := mkRule {
  rule_length    : length_rule;
  mobilePrefixes : list jsstring
}.

Definition countryRules : list (jsstring * CountryRule) :=
  [ (str "1",   mkRule (Exactly 10)
       (map str ["202"; "212"; "310"; "408"; "415"; "510"; "650"; "213"; "323"; "424";
                 "619"; "707"; "805"; "818"; "831"; "858"; "909"; "916"; "925"; "949"]%string));
    (str "254", mkRule (Exactly 9)
       (map str ["70"; "71"; "72"; "73"; "74"; "75"; "76"; "77"; "78"; "79"]%string));
    (str "255", mkRule (Exactly 9)
       (map str ["65"; "67"; "68"; "69"; "71"; "73"; "74"; "75"; "76"; "77"; "78"; "79"]%string));
    (str "44",  mkRule (Exactly 10) (map str ["74"; "75"; "77"; "78"; "79"]%string));
    (str "91",  mkRule (Exactly 10) (map str ["6"; "7"; "8"; "9"]%string));
    (str "61",  mkRule (Exactly 9) (map str ["4"]%string));
    (str "234", mkRule (Exactly 10) (map str ["70"; "80"; "81"; "90"; "91"]%string));
    (str "55",  mkRule (OneOf [10; 11]) (map str ["6"; "7"; "8"; "9"]%string));
    (str "49",  mkRule (OneOf [10; 11]) (map str ["15"; "16"; "17"]%string));
    (str "81",  mkRule (Exactly 10) (map str ["70"; "80"; "90"]%string)) ].

(** [countryRules[countryCode]] *)
Fixpoint lookup (key : jsstring) (table : list (jsstring * CountryRule)) : option CountryRule :=
  match table with
  | [] => None
  | (k, v) :: t => if jsstring_eqb k key then Some v else lookup key t
  end.

(** [Array.isArray(rules.length) ? rules.length.includes(n) : n === rules.length] *)
Definition length_matches (l : length_rule) (n : nat) : bool :=
  match l with
  | Exactly k => n =? k
  | OneOf ks => existsb (Nat.eqb n) ks
  end.

(** [phone.replace(/[^\d]/g, '')] *)
Definition digits_only (phone : jsstring) : jsstring :=
  replace_all (Chr (cls_not is_digit)) (fun _ => []) phone.

Definition phone_requirements_empty : list Requirement :=
  [ mkReq None msg_prefix false;
    mkReq None msg_length false;
    mkReq None msg_charset false;
    mkReq None msg_country false;
    mkReq None msg_mobile false ].

Definition phone_requirements_init : list Requirement :=
  [ mkReq (Some re_prefix) msg_prefix false;
    mkReq (Some re_length) msg_length false;
    mkReq (Some re_charset) msg_charset false;
    mkReq (Some re_country) msg_country false;
    mkReq (Some re_anything) msg_mobile true ].

Definition validateInternationalPhoneNumber (phone : value) : ValidationResult :=
  match phone with
  | VOther | VString [] => mkResult false phone_requirements_empty
  | VString phone =>
      (* Test basic requirements *)
      let requirements :=
        map (fun req =>
               if negb (jsstring_eqb (message req) msg_mobile)
               then set_met (run_test req phone) req
               else req)
            phone_requirements_init in
      (* Country-specific validation (length and mobile prefixes) *)
      let requirements :=
        match string_match re_country_code phone with
        | Some countryCodeMatch =>
            let countryCode :=
              match get_cap 2 countryCodeMatch with Some w => w | None => [] end in
            let digits := slice_from (length countryCode) (digits_only phone) in
            let '(isValidLength, requirements) :=
              match lookup countryCode countryRules with
              | Some rules =>
                  let isValidLength := length_matches (rule_length rules) (length digits) in
                  let prefix := slice 0 (length (hd [] (mobilePrefixes rules))) digits in
                  let isValidMobilePrefix := includes (mobilePrefixes rules) prefix in
                  (isValidLength,
                   update 4 (set_met isValidMobilePrefix)
                     (update 4 (set_pattern (re_mobile countryCode (mobilePrefixes rules)))
                        requirements))
              | None =>
                  ((6 <=? length digits) && (length digits <=? 14),
                   update 4 (set_met true) requirements)
              end in
            update 1 (fun q => set_met (met q && isValidLength) q) requirements
        | None =>
            update 4 (set_met true) (update 1 (set_met false) requirements)
        end in
      mkResult (every_met requirements) requirements
  end.

(** ** [formatPhoneNumber] *)

(** [/^00/] *)
Definition re_00 : regex := (Bol ;; Lit (str "00"))%re.
(** [/[\s\-\(\)]/g] *)
Definition re_separator : regex := Chr (cls_or is_space (one_of "-()")).
(** [/^(\+)[0-9]{6,15}$/] *)
Definition re_formatted : regex :=
  (Bol ;; Group 1 (Chr (is_char "+")) ;; Between is_digit 6 15 ;; Eol)%re.

Definition formatPhoneNumber (phone : value) : jsstring :=
  match phone with
  | VOther | VString [] => []
  | VString phone =>
      let formatted := replace_first re_00 (str "+") phone in
      let formatted := replace_all re_separator (fun _ => []) formatted in
      if negb (startsWith (str "+") formatted) then []
      else if negb (test re_formatted formatted) then []
      else formatted
  end.

(** ** [checkPasswordComplexity] and [checkPasswordStrength] *)

(** [[^\p{Letter}\p{Number}]] *)
Definition not_letter_number : ascii -> bool := cls_not (cls_or is_L is_Number).
(** [[^\p{Letter}\p{Number}\s]] *)
Definition is_special : ascii -> bool :=
  cls_not (cls_or is_L (cls_or is_Number is_space)).

(** [/^(?!\s) L1 L2 L3 L4 .{8,}$/u], where the four lookaheads L1..L4 are
    [(?=X.* )] for X = [\p{Lu}], [\p{Ll}], [\p{Number}] and
    [[^\p{Letter}\p{Number}]], in this order. *)
Definition re_complexity : regex :=
  (Bol ;; NLook (Chr is_space)
       ;; Look (Chr is_Lu ;; Star dot)
       ;; Look (Chr is_Ll ;; Star dot)
       ;; Look (Chr is_Number ;; Star dot)
       ;; Look (Chr not_letter_number ;; Star dot)
       ;; AtLeast dot 8 ;; Eol)%re.

Definition checkPasswordComplexity (password : value) : bool :=
  match password with
  | VOther | VString [] => false
  | VString password => test re_complexity password
  end.

Definition password_messages : list jsstring :=
  map str [ "At least 8 characters";
            "At least one uppercase letter";
            "At least one lowercase letter";
            "At least one digit";
            "At least one special character";
            "No leading or trailing whitespace" ]%string.

(** [/.{8,}/], [/\p{Lu}/u], [/\p{Ll}/u], [/\p{Number}/u],
    [/[^\p{Letter}\p{Number}\s]/u], [/^(?!\s).*(?<!\s)$/] *)
Definition password_patterns : list regex :=
  [ AtLeast dot 8;
    Chr is_Lu;
    Chr is_Ll;
    Chr is_Number;
    Chr is_special;
    (Bol ;; NLook (Chr is_space) ;; Star dot ;; NLookBehind is_space ;; Eol)%re ].

Definition password_requirements_empty : list Requirement :=
  map (fun msg => mkReq None msg false) password_messages.

Definition password_requirements_init : list Requirement :=
  map (fun rm => mkReq (Some (fst rm)) (snd rm) false)
      (combine password_patterns password_messages).

Definition checkPasswordStrength (password : value) : ValidationResult :=
  match password with
  | VOther | VString [] => mkResult false password_requirements_empty
  | VString password =>
      let requirements :=
        map (fun req => set_met (run_test req password) req) password_requirements_init in
      mkResult (every_met requirements) requirements
  end.

(** ** [extractSocialMediaEntities], [cleanString] and [tokenizeText] *)

(** [[\p{L}\d_]] *)
Definition tag_char : ascii -> bool := cls_or is_L (cls_or is_digit (is_char "_")).
(** [[\p{L}\d\-._~:/?#[\]@!$&'()*+,;=]] *)
Definition url_char : ascii -> bool :=
  cls_or is_L (cls_or is_digit (one_of "-._~:/?#[]@!$&'()*+,;=")).

(** [/#[\p{L}\d_]+/gu] *)
Definition hashtagRegex : regex := (Chr (is_char "#") ;; Plus tag_char)%re.
(** [/@[\p{L}\d_]+/gu] *)
Definition mentionRegex : regex := (Chr (is_char "@") ;; Plus tag_char)%re.
(** [/(?:https?:\/\/|www\.)[\p{L}\d\-._~:/?#[\]@!$&'()*+,;=]+/gu] *)
Definition urlRegex : regex :=
  (((Lit (str "http") ;; Opt (Chr (is_char "s")) ;; Lit (str "://")) ||| Lit (str "www."))
   ;; Plus url_char)%re.

Record SocialEntities := mkEntities {
  e_hashtags : list jsstring;
  e_mentions : list jsstring;
  e_urls     : list jsstring
}.

Definition extractSocialMediaEntities (text : value) : SocialEntities :=
  match text with
  | VOther | VString [] => mkEntities [] [] []
  | VString text =>
      mkEntities (match_all hashtagRegex text)
                 (match_all mentionRegex text)
                 (match_all urlRegex text)
  end.

(** The options object: [case] is a string (compared after
    [toLowerCase]), [removeSpecial] is used as a condition. *)
Record CleanOptions := mkOptions {
  caseOption    : jsstring;
  removeSpecial : bool
}.

Definition default_options : CleanOptions := mkOptions (str "none") false.

(** [/\s+/g], [/[^\p{L}\p{Number}\s]/gu], [/\b\p{L}+\b/gu] *)
Definition re_spaces : regex := Plus is_space.
Definition re_special : regex := Chr is_special.
Definition re_word : regex := (WordB ;; Plus is_L ;; WordB)%re.

(** [word => word.charAt(0).toUpperCase() + word.slice(1).toLowerCase()] *)
Definition capitalize (word : jsstring) : jsstring :=
  toUpperCase (firstn 1 word) ++ toLowerCase (slice_from 1 word).

Definition cleanString (text : value) (options : CleanOptions) : jsstring :=
  match text with
  | VOther | VString [] => []
  | VString text =>
      (* Remove extra spaces *)
      let cleaned := trim (replace_all re_spaces (fun _ => str " ") text) in
      (* Remove special characters if requested *)
      let cleaned :=
        if removeSpecial options then replace_all re_special (fun _ => []) cleaned
        else cleaned in
      (* Case conversion *)
      let c := toLowerCase (caseOption options) in
      if jsstring_eqb c (str "upper") then toUpperCase cleaned
      else if jsstring_eqb c (str "lower") then toLowerCase cleaned
      else if jsstring_eqb c (str "title") then replace_all re_word capitalize cleaned
      else cleaned
  end.

Record TokenizedText := mkTokens {
  words       : list jsstring;
  numbers     : list jsstring;
  punctuation : list jsstring;
  hashtags    : list jsstring;
  mentions    : list jsstring;
  urls        : list jsstring
}.

(** [/\p{L}+/gu], [/\d+(?:\.\d+)?/g], [/[^\p{L}\p{Number}\s]/gu] *)
Definition wordRegex : regex := Plus is_L.
Definition numberRegex : regex :=
  (Plus is_digit ;; Opt (Chr (is_char ".") ;; Plus is_digit))%re.
Definition punctuationRegex : regex := Chr is_special.

Definition tokenizeText (text : value) : TokenizedText :=
  match text with
  | VOther | VString [] => mkTokens [] [] [] [] [] []
  | VString text =>
      mkTokens (match_all wordRegex text)
               (match_all numberRegex text)
               (match_all punctuationRegex text)
               (match_all hashtagRegex text)
               (match_all mentionRegex text)
               (match_all urlRegex text)
  end.

(** * Specification-level notions

    ** What a pattern matches

    [Matches r p s p' s'] says that [r] can take the matcher from the index
    with [p] (reversed) before it and [s] after it to the index described
    by [p'] and [s']; it says nothing about the order in which a
    backtracking matcher finds the alternatives. *)

Definition within (hi : option nat) (n : nat) : Prop :=
  match hi with
  | Some h => n <= h
  | None => True
  end.

Fixpoint Matches (r : regex) (p s p' s' : list ascii) {struct r} : Prop :=
  match r with
  | Chr cs => exists c, s = c :: s' /\ p' = c :: p /\ cs c = true
  | Rep cs lo hi =>
      exists w, s = w ++ s' /\ p' = rev w ++ p /\ forallb cs w = true /\
                lo <= length w /\ within hi (length w)
  | Opt r' => Matches r' p s p' s' \/ (p' = p /\ s' = s)
  | Seq r1 r2 => exists p1 s1, Matches r1 p s p1 s1 /\ Matches r2 p1 s1 p' s'
  | Alt r1 r2 => Matches r1 p s p' s' \/ Matches r2 p s p' s'
  | Eps => p' = p /\ s' = s
  | Group _ r' => Matches r' p s p' s'
  | Bol => p = [] /\ p' = p /\ s' = s
  | Eol => s = [] /\ p' = p /\ s' = s
  | WordB => xorb (hd_is is_word p) (hd_is is_word s) = true /\ p' = p /\ s' = s
  | Look r' => (exists p1 s1, Matches r' p s p1 s1) /\ p' = p /\ s' = s
  | NLook r' => ~ (exists p1 s1, Matches r' p s p1 s1) /\ p' = p /\ s' = s
  | NLookBehind cs => hd_is cs p = false /\ p' = p /\ s' = s
  end.

(** A quantifier [{lo,hi}] with [lo > hi] is a syntax error. *)
Fixpoint wf (r : regex) : bool :=
  match r with
  | Rep _ lo (Some hi) => lo <=? hi
  | Opt r' | Group _ r' | Look r' | NLook r' => wf r'
  | Seq r1 r2 | Alt r1 r2 => wf r1 && wf r2
  | _ => true
  end.

Definition same_pos (y y' : state) : Prop := pre y = pre y' /\ suf y = suf y'.

(** A continuation whose success depends on the index only (the patterns
    have no back-references). *)
Definition pos_insensitive (k : state -> result) : Prop :=
  forall y y', same_pos y y' -> k y <> None -> k y' <> None.

(** A pattern that starts with [^]. *)
Fixpoint anchored (r : regex) : bool :=
  match r with
  | Bol => true
  | Seq r1 _ => anchored r1
  | Group _ r' => anchored r'
  | _ => false
  end.

(** The matcher is sound and complete for [Matches]: a successful run
    passes through an index that [r] reaches, and the matcher finds a
    match whenever there is one after which the continuation succeeds. *)
Definition sound (r : regex) : Prop :=
  forall x k z, m r x k = Some z ->
    exists y, Matches r (pre x) (suf x) (pre y) (suf y) /\ k y = Some z.

Definition complete (r : regex) : Prop :=
  forall x k y, pos_insensitive k ->
    Matches r (pre x) (suf x) (pre y) (suf y) -> k y <> None -> m r x k <> None.

(** ** [validateEmail]: the accepted addresses *)
(** A local part of 1 to 64 characters among letters, digits and [._%+-],
    [@], a domain of one or more characters among letters, digits, [.] and
    [-], a dot, and 2 to 63 letters; letters are a-z and A-Z, digits 0-9. *)
Definition email_shape (s : jsstring) : Prop :=
  exists l d t,
    s = l ++ str "@" ++ d ++ str "." ++ t /\
    1 <= length l <= 64 /\ forallb email_local l = true /\
    1 <= length d /\ forallb email_domain d = true /\
    2 <= length t <= 63 /\ forallb is_alpha t = true.

(** ** [validateInternationalPhoneNumber]: country code and length rule *)
(** The length of the longest prefix of [s] inside the class [cs]. *)
Fixpoint run (cs : ascii -> bool) (s : jsstring) : nat :=
  match s with
  | c :: s' => if cs c then S (run cs s') else 0
  | [] => 0
  end.

(** [hi] as a bound on the length of a run. *)
Definition cap_hi (hi : option nat) (n : nat) : nat :=
  match hi with
  | Some h => Nat.min h n
  | None => n
  end.

(** What follows the prefix [+] or [00], if the string starts with one. *)
Definition strip_prefix (s : jsstring) : option jsstring :=
  if startsWith (str "+") s then Some (skipn 1 s)
  else if startsWith (str "00") s then Some (skipn 2 s)
  else None.

(** The country code as the specification words it: the longest run of
    up to three digits right after the prefix (and there must be one). *)
Definition country_code (s : jsstring) : option jsstring :=
  match strip_prefix s with
  | Some rest =>
      match firstn (Nat.min 3 (run is_digit rest)) rest with
      | [] => None
      | cc => Some cc
      end
  | None => None
  end.

(** The national number: the digits of the whole string, without as many
    leading digits as the country code has. *)
Definition national_number (s cc : jsstring) : jsstring :=
  skipn (length cc) (filter is_digit s).

(** The length rule: the expected length of the table for a recognized
    country code, 6 to 14 digits otherwise. *)
Definition national_length_rule (s : jsstring) : bool :=
  match country_code s with
  | Some cc =>
      let n := length (national_number s cc) in
      match lookup cc countryRules with
      | Some rules => length_matches (rule_length rules) n
      | None => (6 <=? n) && (n <=? 14)
      end
  | None => false
  end.

(** ** [validateInternationalPhoneNumber]: requirement 2 *)
(** The two prefixes of requirement 1. *)
Definition country_prefix (p : jsstring) : Prop := p = str "+" \/ p = str "00".

(** What the pattern of requirement 2 accepts: after the prefix, 6 to 14
    characters among digits, white space, hyphens and parentheses, and
    then one more character, a digit. *)
Definition length_shape (s : jsstring) : Prop :=
  exists p body d,
    s = p ++ body ++ [d] /\ country_prefix p /\
    6 <= length body <= 14 /\ forallb phone_char body = true /\ is_digit d = true.

(** The shape as C6 words it: after the prefix, 6 to 14 such
    characters in all, the last of them a digit. *)
Definition claimed_length_shape (s : jsstring) : Prop :=
  exists p body,
    s = p ++ body /\ country_prefix p /\
    6 <= length body <= 14 /\ forallb phone_char body = true /\
    exists b d, body = b ++ [d] /\ is_digit d = true.

(** [isValidLength], as the function computes it: the country code is
    group 2 of [/^(\+|00)(\d{1,3})/], the national number is what remains
    of the digits of the whole string after as many digits as the code
    has. *)
Definition national_length_ok (phone : jsstring) : bool :=
  match string_match re_country_code phone with
  | Some countryCodeMatch =>
      let countryCode :=
        match get_cap 2 countryCodeMatch with Some w => w | None => [] end in
      let digits := slice_from (length countryCode) (digits_only phone) in
      match lookup countryCode countryRules with
      | Some rules => length_matches (rule_length rules) (length digits)
      | None => (6 <=? length digits) && (length digits <=? 14)
      end
  | None => false
  end.

(** [requirements[1].met] of the result. *)
Definition requirement2_met (v : value) : bool :=
  met_at 1 (requirements (validateInternationalPhoneNumber v)).

(** ** [validateInternationalPhoneNumber]: requirement 5 *)
(** The country codes that fill the three digits the function reads. *)
Definition three_digit_code (code : jsstring) : Prop :=
  code = str "254" \/ code = str "255" \/ code = str "234".

(** The country codes shorter than the three digits the function reads. *)
Definition short_code (code : jsstring) : Prop :=
  In code (map str ["1"; "44"; "91"; "61"; "55"; "49"; "81"]%string).

(** [requirements[4].met] of the result. *)
Definition requirement5_met (v : value) : bool :=
  met_at 4 (requirements (validateInternationalPhoneNumber v)).

(** ** [formatPhoneNumber], step by step *)
(** The separators the source's pattern [/[\s\-\(\)]/g] strips: every
    white-space character (the class [\s]: the space, and also the tab, the
    line breaks, ...), the hyphen and the two parentheses. *)
Definition is_separator (c : ascii) : bool := is_space c || one_of "-()" c.

(** The separators as C7 words them: the space, the hyphen and the two
    parentheses. *)
Definition is_claimed_separator (c : ascii) : bool := one_of " -()" c.

(** [+] followed by exactly 6 to 15 digits. *)
Definition plus_digits (s : jsstring) : bool :=
  match s with
  | c :: ds =>
      is_char "+" c && (6 <=? length ds) && (length ds <=? 15) && forallb is_digit ds
  | [] => false
  end.

(** The five steps of the formatter, in their order, for a given class
    [separator] of characters to strip. *)
Definition format_steps (separator : ascii -> bool) (phone : value) : jsstring :=
  match phone with
  | VOther => []
  | VString s =>
      if (length s =? 0) then [] else
      (* (a) a leading 00 becomes + *)
      let a := if startsWith (str "00") s then str "+" ++ skipn 2 s else s in
      (* (b) strip the separators *)
      let b := filter (fun c => negb (separator c)) a in
      (* (c) no leading +: cannot format *)
      if negb (startsWith (str "+") b) then []
      (* (d) not + and 6 to 15 digits: cannot format *)
      else if negb (plus_digits b) then []
      (* (e) the normalized string *)
      else b
  end.

(** The steps with the separators of the source: white space of any kind,
    hyphens and parentheses. *)
Definition formatPhoneNumber_steps : value -> jsstring := format_steps is_separator.

(** The steps as C7 words them: the space, the hyphen and the parentheses
    are the only characters stripped. *)
Definition formatPhoneNumber_claimed : value -> jsstring :=
  format_steps is_claimed_separator.

(** ** Relating two inputs character by character

    For a relation [R] on characters: the patterns all of whose classes
    respect [R], and the matcher states and results that [R] relates. *)

Section RelabellingDefinitions.

Variable R : ascii -> ascii -> Prop.

Definition respects_class (cs : ascii -> bool) : Prop :=
  forall c c', R c c' -> cs c = cs c'.

Fixpoint respects (r : regex) : Prop :=
  match r with
  | Chr cs | Rep cs _ _ | NLookBehind cs => respects_class cs
  | Opt r' | Group _ r' | Look r' | NLook r' => respects r'
  | Seq r1 r2 | Alt r1 r2 => respects r1 /\ respects r2
  | Eps | Bol | Eol | WordB => True
  end.

Definition rel_state (x x' : state) : Prop :=
  Forall2 R (pre x) (pre x') /\ Forall2 R (suf x) (suf x').

Definition rel_result (o o' : result) : Prop :=
  match o, o' with
  | Some y, Some y' => rel_state y y'
  | None, None => True
  | _, _ => False
  end.

End RelabellingDefinitions.

(** [replace_all] in the middle of a text, [p] being what precedes. *)
Definition replace_from (r : regex) (f : jsstring -> jsstring) (p s : list ascii) : jsstring :=
  flat_map (render f) (scan r p s 0).

(** ** [cleanString]: white space *)
(** Every maximal run of white space becomes one space; [in_run] says that
    the previous character was white space. *)
Fixpoint squeeze (in_run : bool) (s : jsstring) : jsstring :=
  match s with
  | [] => []
  | c :: s' =>
      if is_space c then (if in_run then squeeze true s' else " "%char :: squeeze true s')
      else c :: squeeze false s'
  end.

(** The strings the first step of [cleanString] leaves alone: the only
    white space is single spaces between other characters.  [prev] says
    that the previous character was white space (or that there is none).
    [spaced] allows a space at the end, and the empty string. *)
Fixpoint normal (prev : bool) (s : jsstring) : bool :=
  match s with
  | [] => negb prev
  | c :: s' =>
      if is_space c then negb prev && is_char " " c && normal true s'
      else normal false s'
  end.

Fixpoint spaced (prev : bool) (s : jsstring) : bool :=
  match s with
  | [] => true
  | c :: s' =>
      if is_space c then negb prev && is_char " " c && spaced true s'
      else spaced false s'
  end.

(** ** [cleanString]: case *)
(** Two characters that differ in case at most. *)
Definition same_letter (c c' : ascii) : Prop := lower_char c = lower_char c'.

(** The switch of [cleanString] on the [case] option. *)
Definition convert_case (option cleaned : jsstring) : jsstring :=
  let c := toLowerCase option in
  if jsstring_eqb c (str "upper") then toUpperCase cleaned
  else if jsstring_eqb c (str "lower") then toLowerCase cleaned
  else if jsstring_eqb c (str "title") then replace_all re_word capitalize cleaned
  else cleaned.

(** The inputs on which the case conversions of this development are the
    JavaScript ones: non-strings, and strings of ASCII characters. *)
Definition ascii_value (v : value) : Prop :=
  match v with
  | VString s => forallb (fun c => code c <? 128) s = true
  | VOther => True
  end.

(** ** [validateInternationalPhoneNumber]: requirements 1, 3 and 4 *)
(** [requirements[0].met], [requirements[2].met] and [requirements[3].met]
    of the result. *)
Definition requirement1_met (v : value) : bool :=
  met_at 0 (requirements (validateInternationalPhoneNumber v)).

Definition requirement3_met (v : value) : bool :=
  met_at 2 (requirements (validateInternationalPhoneNumber v)).

Definition requirement4_met (v : value) : bool :=
  met_at 3 (requirements (validateInternationalPhoneNumber v)).

(** ** [checkPasswordStrength]: what the six patterns test *)
(** [s] holds [n] characters of the class [cs] in a row. *)
Fixpoint has_run (cs : ascii -> bool) (n : nat) (s : jsstring) : bool :=
  (n <=? run cs s) ||
  match s with
  | _ :: s' => has_run cs n s'
  | [] => false
  end.

(** The inputs on which [.] is the JavaScript one: non-strings, and strings
    whose characters are all at most U+00FF.  (Beyond that range [.] also
    stops at U+2028 and U+2029.) *)
Definition latin1_value (v : value) : Prop :=
  match v with
  | VString s => forallb (fun c => code c <=? 255) s = true
  | VOther => True
  end.

(** No line break anywhere, and no white space at either end. *)
Definition clean_ends (s : jsstring) : bool :=
  forallb dot s && negb (hd_is is_space s) && negb (hd_is is_space (rev s)).

(** ** The strength meter of the demo page ([demo/index.html]) *)
(** [result.requirements.filter(req => req.met).length] *)
Definition strength (result : ValidationResult) : nat :=
  length (filter met (requirements result)).

(** The colour class the handler gives the bar. *)
Definition strength_colour (strength : nat) : jsstring :=
  if strength <=? 2 then str "bg-red-500"
  else if strength <=? 4 then str "bg-yellow-500"
  else str "bg-green-500".

(** ** [tokenizeText] and [extractSocialMediaEntities]: the tokens *)
(** The maximal runs of characters of the class [cs] in [s], from left to
    right; [acc] holds, reversed, the run that is being read. *)
Fixpoint runs_from (cs : ascii -> bool) (acc : list ascii) (s : jsstring) : list jsstring :=
  match s with
  | [] => match acc with [] => [] | _ => [rev acc] end
  | c :: s' =>
      if cs c then runs_from cs (c :: acc) s'
      else match acc with [] => [] | _ => [rev acc] end ++ runs_from cs [] s'
  end.

(** The maximal runs of the class [cs] in [s]. *)
Definition runs (cs : ascii -> bool) (s : jsstring) : list jsstring := runs_from cs [] s.

(** The three ways a URL may start. *)
Definition url_schemes : list jsstring := map str ["http://"; "https://"; "www."]%string.

(** [w] is found in [text] as [head] followed by the longest run of
    characters of the class [cs] that follows it there, one at least. *)
Definition marked_run (head : jsstring) (cs : ascii -> bool) (text w : jsstring) : Prop :=
  exists a rest,
    text = a ++ head ++ rest /\ 1 <= run cs rest /\
    w = head ++ firstn (run cs rest) rest.

(** ** [extractSocialMediaEntities]: the hashtags and the mentions *)
(** For every [marker] of the text that a character of the class [cs]
    follows: the marker and the longest run of [cs] after it. *)
Fixpoint marked (marker : ascii) (cs : ascii -> bool) (s : jsstring) : list jsstring :=
  match s with
  | [] => []
  | c :: s' =>
      (if is_char marker c && (1 <=? run cs s')
       then [c :: firstn (run cs s') s'] else []) ++ marked marker cs s'
  end.

(** ** [cleanString]: what is kept *)
(** The characters [cleanString] keeps: white space goes (single spaces
    are put back between what remains), and so do the special characters
    when [removeSpecial] is set. *)
Definition kept (o : CleanOptions) (c : ascii) : bool :=
  negb (is_space c) && negb (removeSpecial o && is_special c).

(** The two steps of [cleanString] before the case conversion. *)
Definition strip (o : CleanOptions) (text : jsstring) : jsstring :=
  let cleaned := trim (replace_all re_spaces (fun _ => str " ") text) in
  if removeSpecial o then replace_all re_special (fun _ => []) cleaned else cleaned.

(** ** [validateEmail]: what every accepted address has *)
(** A character that is allowed somewhere in an address. *)
Definition email_char (c : ascii) : bool :=
  email_local c || email_domain c || is_alpha c || is_char "@" c || is_char "." c.

(** * Properties *)

Lemma jsstring_eqb_eq a b : jsstring_eqb a b = true <-> a = b.
Proof.
  unfold jsstring_eqb. destruct (list_eq_dec ascii_dec a b); split; congruence.
Qed.

(** Boolean hypotheses: conjunctions are split, comparisons turned into
    statements about numbers and characters. *)
Ltac bool_hyps :=
  repeat match goal with
         | H : _ && _ = true |- _ => apply andb_prop in H; destruct H
         | H : (_ <=? _) = true |- _ => apply Nat.leb_le in H
         | H : (_ =? _) = true |- _ => apply Nat.eqb_eq in H
         | H : is_char _ _ = true |- _ => apply Ascii.eqb_eq in H
         end.

(** ** Anchored patterns

    A pattern that starts with [^] can only match at index 0, so [test]
    and [exec] reduce to a single attempt. *)

Lemma m_anchored r : forall x k,
  anchored r = true -> pre x <> [] -> m r x k = None.
Proof.
  induction r; intros x k Ha Hp; simpl in Ha; try discriminate; simpl.
  - now apply IHr1.
  - now apply IHr.
  - destruct (pre x); [congruence | reflexivity].
Qed.

Lemma exec_from_anchored r s : forall p,
  anchored r = true -> p <> [] -> exec_from r p s = None.
Proof.
  induction s as [|c s IH]; intros p Ha Hp; simpl;
    unfold match_here; rewrite m_anchored by (simpl; assumption).
  - reflexivity.
  - apply IH; [assumption | discriminate].
Qed.

Lemma exec_anchored r s :
  anchored r = true ->
  exec r s = match match_here r [] s with Some y => Some ([], y) | None => None end.
Proof.
  intros Ha. unfold exec. destruct s as [|c s]; simpl.
  - now destruct (match_here r [] []).
  - destruct (match_here r [] (c :: s)); [reflexivity|].
    apply exec_from_anchored; [assumption | discriminate].
Qed.

Lemma test_anchored r s :
  anchored r = true ->
  test r s = match match_here r [] s with Some _ => true | None => false end.
Proof.
  intros Ha. unfold test. rewrite exec_anchored by assumption.
  now destruct (match_here r [] s).
Qed.

(** ** The matcher against [Matches] *)

Lemma or_else_some a b z : or_else a b = Some z -> a = Some z \/ (a = None /\ b = Some z).
Proof. destruct a; simpl; intros H; [left | right]; auto. Qed.

Lemma or_else_not_none a b : a <> None \/ b <> None -> or_else a b <> None.
Proof. destruct a; simpl; intros [H|H]; congruence. Qed.

Lemma rep_sound cs s : forall lo hi p k z,
  wf (Rep cs lo hi) = true ->
  rep cs lo hi p s k = Some z ->
  exists w s', s = w ++ s' /\ forallb cs w = true /\ lo <= length w /\
               within hi (length w) /\ k (rev w ++ p) s' = Some z.
Proof.
  induction s as [|c s IH]; intros lo hi p k z Hwf H.
  - exists [], []. simpl in *.
    destruct hi as [[|h]|]; simpl in *;
      try (apply Nat.leb_le in Hwf);
      destruct lo; simpl in *; try discriminate; repeat split; auto; lia.
  - simpl in H.
    assert (Hstop : lo = 0 -> k p (c :: s) = Some z ->
              exists w s', c :: s = w ++ s' /\ forallb cs w = true /\ lo <= length w /\
                within hi (length w) /\ k (rev w ++ p) s' = Some z).
    { intros -> Hk. exists [], (c :: s). simpl. repeat split; auto.
      destruct hi; simpl; lia. }
    assert (Hmore : hi <> Some 0 -> cs c = true ->
              rep cs (Nat.pred lo) (option_map Nat.pred hi) (c :: p) s k = Some z ->
              exists w s', c :: s = w ++ s' /\ forallb cs w = true /\ lo <= length w /\
                within hi (length w) /\ k (rev w ++ p) s' = Some z).
    { intros Hhi Hc Hr. apply IH in Hr.
      - destruct Hr as (w & s' & -> & Hw & Hlo & Hhi' & Hk).
        exists (c :: w), s'. simpl. rewrite Hc, Hw, <- app_assoc. simpl.
        repeat split; auto; [lia|].
        destruct hi as [[|h]|]; simpl in *; try congruence; lia.
      - destruct hi as [[|h]|]; simpl in *; try congruence.
        apply Nat.leb_le in Hwf. apply Nat.leb_le. lia. }
    destruct hi as [[|h]|].
    + simpl in Hwf. apply Nat.leb_le in Hwf. apply Hstop; [lia | exact H].
    + destruct lo.
      * apply or_else_some in H. destruct H as [H | [_ H]]; [|now apply Hstop].
        destruct (cs c) eqn:Hc; [|discriminate]. apply Hmore; [discriminate | auto | exact H].
      * destruct (cs c) eqn:Hc; [|discriminate]. apply Hmore; [discriminate | auto | exact H].
    + destruct lo.
      * apply or_else_some in H. destruct H as [H | [_ H]]; [|now apply Hstop].
        destruct (cs c) eqn:Hc; [|discriminate]. apply Hmore; [discriminate | auto | exact H].
      * destruct (cs c) eqn:Hc; [|discriminate]. apply Hmore; [discriminate | auto | exact H].
Qed.

Lemma rep_complete cs w : forall lo hi p s' k,
  forallb cs w = true -> lo <= length w -> within hi (length w) ->
  k (rev w ++ p) s' <> None ->
  rep cs lo hi p (w ++ s') k <> None.
Proof.
  induction w as [|c w IH]; intros lo hi p s' k Hw Hlo Hhi Hk; simpl in *.
  - assert (lo = 0) by lia. subst lo.
    destruct s' as [|c' s'']; simpl; destruct hi as [[|h]|]; auto;
      apply or_else_not_none; right; exact Hk.
  - apply andb_prop in Hw. destruct Hw as [Hc Hw]. rewrite Hc.
    assert (Hmore : rep cs (Nat.pred lo) (option_map Nat.pred hi) (c :: p) (w ++ s') k <> None).
    { apply IH; auto.
      - lia.
      - destruct hi as [[|h]|]; simpl in *; lia.
      - now rewrite <- app_assoc in Hk. }
    destruct hi as [[|h]|]; simpl in Hhi; [lia | |];
      (destruct lo; [apply or_else_not_none; left|]; exact Hmore).
Qed.

Lemma same_pos_refl y : same_pos y y.
Proof. split; reflexivity. Qed.

Lemma pos_insensitive_Some : pos_insensitive Some.
Proof. intros y y' _ _. discriminate. Qed.

Lemma pos_insensitive_seq r k :
  sound r -> complete r -> pos_insensitive k -> pos_insensitive (fun y => m r y k).
Proof.
  intros Hs Hc Hk y y' [Hp Hsf] H.
  destruct (m r y k) as [z|] eqn:Hm; [|congruence].
  apply Hs in Hm. destruct Hm as (y1 & HM & Hk1).
  apply (Hc y' k y1); auto.
  - now rewrite <- Hp, <- Hsf.
  - congruence.
Qed.

Theorem m_sound_complete r : wf r = true -> sound r /\ complete r.
Proof.
  induction r; intros Hwf; simpl in Hwf.
  - (* Chr *)
    split.
    + intros x k z H. simpl in H. destruct (suf x) as [|c s'] eqn:Hs; [discriminate|].
      destruct (cs c) eqn:Hc; [|discriminate].
      eexists; split; [|exact H]. simpl. exists c. auto.
    + intros x k y Hk (c & Hs & Hp & Hc) Hy. simpl. rewrite Hs, Hc.
      apply (Hk y); [|exact Hy]. split; simpl; auto.
  - (* Rep *)
    split.
    + intros x k z H. simpl in H. apply rep_sound in H; [|exact Hwf].
      destruct H as (w & s' & Hs & Hw & Hlo & Hhi & Hk).
      eexists; split; [|exact Hk]. simpl. exists w. auto.
    + intros x k y Hk (w & Hs & Hp & Hw & Hlo & Hhi) Hy. simpl. rewrite Hs.
      apply rep_complete; auto.
      apply (Hk y); [|exact Hy]. split; simpl; auto.
  - (* Opt *)
    destruct (IHr Hwf) as [Hs Hc]. split.
    + intros x k z H. simpl in H. apply or_else_some in H. destruct H as [H | [_ H]].
      * apply Hs in H. destruct H as (y & HM & Hk). exists y. simpl. auto.
      * exists x. simpl. auto.
    + intros x k y Hk [HM | [Hp Hsf]] Hy; simpl; apply or_else_not_none.
      * left. now apply (Hc x k y).
      * right. apply (Hk y); [|exact Hy]. split; auto.
  - (* Seq *)
    apply andb_prop in Hwf. destruct Hwf as [Hwf1 Hwf2].
    destruct (IHr1 Hwf1) as [Hs1 Hc1]. destruct (IHr2 Hwf2) as [Hs2 Hc2]. split.
    + intros x k z H. simpl in H. apply Hs1 in H. destruct H as (y1 & HM1 & H).
      apply Hs2 in H. destruct H as (y & HM2 & Hk).
      exists y. split; [|exact Hk]. simpl. eauto.
    + intros x k y Hk (p1 & s1 & HM1 & HM2) Hy. simpl.
      apply (Hc1 x _ (mkState p1 s1 [])); [now apply pos_insensitive_seq | exact HM1 |].
      now apply (Hc2 _ k y).
  - (* Alt *)
    apply andb_prop in Hwf. destruct Hwf as [Hwf1 Hwf2].
    destruct (IHr1 Hwf1) as [Hs1 Hc1]. destruct (IHr2 Hwf2) as [Hs2 Hc2]. split.
    + intros x k z H. simpl in H. apply or_else_some in H. destruct H as [H | [_ H]].
      * apply Hs1 in H. destruct H as (y & HM & Hk). exists y. simpl. auto.
      * apply Hs2 in H. destruct H as (y & HM & Hk). exists y. simpl. auto.
    + intros x k y Hk [HM | HM] Hy; simpl; apply or_else_not_none.
      * left. now apply (Hc1 x k y).
      * right. now apply (Hc2 x k y).
  - (* Eps *)
    split.
    + intros x k z H. exists x. simpl. auto.
    + intros x k y Hk [Hp Hsf] Hy. simpl. apply (Hk y); [|exact Hy]. split; auto.
  - (* Group *)
    destruct (IHr Hwf) as [Hs Hc]. split.
    + intros x k z H. simpl in H. apply Hs in H. destruct H as (y & HM & Hk).
      exists (set_cap n x y). simpl. auto.
    + intros x k y Hk HM Hy. simpl.
      apply (Hc x _ y); auto.
      * intros y1 y2 [Hp Hsf]. apply Hk. split; simpl; auto.
      * apply (Hk y); [|exact Hy]. split; reflexivity.
  - (* Bol *)
    split.
    + intros x k z H. simpl in H. destruct (pre x) eqn:Hp; [|discriminate].
      exists x. simpl. rewrite Hp. auto.
    + intros x k y Hk (Hp & Hp' & Hsf) Hy. simpl. rewrite Hp.
      apply (Hk y); [|exact Hy]. split; congruence.
  - (* Eol *)
    split.
    + intros x k z H. simpl in H. destruct (suf x) eqn:Hsf; [|discriminate].
      exists x. simpl. rewrite Hsf. auto.
    + intros x k y Hk (Hsf & Hp' & Hs') Hy. simpl. rewrite Hsf.
      apply (Hk y); [|exact Hy]. split; congruence.
  - (* WordB *)
    split.
    + intros x k z H. simpl in H. destruct (at_word_boundary x) eqn:Hb; [|discriminate].
      exists x. simpl. auto.
    + intros x k y Hk (Hb & Hp' & Hs') Hy. simpl. unfold at_word_boundary. rewrite Hb.
      apply (Hk y); [|exact Hy]. split; congruence.
  - (* Look *)
    destruct (IHr Hwf) as [Hs Hc]. split.
    + intros x k z H. simpl in H. destruct (m r x Some) as [y|] eqn:Hm; [|discriminate].
      apply Hs in Hm. destruct Hm as (y1 & HM & _).
      eexists; split; [|exact H]. simpl. eauto.
    + intros x k y Hk ((p1 & s1 & HM) & Hp' & Hs') Hy. simpl.
      destruct (m r x Some) as [y1|] eqn:Hm.
      * apply (Hk y); [|exact Hy]. split; simpl; auto.
      * exfalso. apply (Hc x Some (mkState p1 s1 [])) in Hm; auto.
        -- apply pos_insensitive_Some.
        -- discriminate.
  - (* NLook *)
    destruct (IHr Hwf) as [Hs Hc]. split.
    + intros x k z H. simpl in H. destruct (m r x Some) as [y|] eqn:Hm; [discriminate|].
      exists x. simpl. repeat split; auto.
      intros (p1 & s1 & HM).
      apply (Hc x Some (mkState p1 s1 [])) in Hm; auto.
      * apply pos_insensitive_Some.
      * discriminate.
    + intros x k y Hk (Hn & Hp' & Hs') Hy. simpl.
      destruct (m r x Some) as [y1|] eqn:Hm.
      * exfalso. apply Hn. apply Hs in Hm. destruct Hm as (y2 & HM & _). eauto.
      * apply (Hk y); [|exact Hy]. split; auto.
  - (* NLookBehind *)
    split.
    + intros x k z H. simpl in H. destruct (hd_is cs (pre x)) eqn:Hb; [discriminate|].
      exists x. simpl. auto.
    + intros x k y Hk (Hb & Hp' & Hs') Hy. simpl. rewrite Hb.
      apply (Hk y); [|exact Hy]. split; congruence.
Qed.

(** One attempt succeeds exactly when the pattern matches from there. *)
Corollary match_here_spec r p s :
  wf r = true ->
  (match_here r p s <> None <-> exists p' s', Matches r p s p' s').
Proof.
  intros Hwf. destruct (m_sound_complete r Hwf) as [Hs Hc]. unfold match_here. split.
  - intros H. destruct (m r (mkState p s []) Some) as [z|] eqn:Hm; [|congruence].
    apply Hs in Hm. destruct Hm as (y & HM & _). simpl in HM. eauto.
  - intros (p' & s' & HM).
    apply (Hc (mkState p s []) Some (mkState p' s' [])); auto.
    + apply pos_insensitive_Some.
    + discriminate.
Qed.

Corollary match_here_Matches r p s y :
  wf r = true -> match_here r p s = Some y -> Matches r p s (pre y) (suf y).
Proof.
  intros Hwf H. destruct (m_sound_complete r Hwf) as [Hs _].
  apply Hs in H. destruct H as (y' & HM & Hy). now inversion Hy; subst.
Qed.

(** A match only moves forward: the text it consumed joins the two ends. *)
Lemma Matches_extends r : forall p s p' s',
  Matches r p s p' s' -> exists w, s = w ++ s' /\ p' = rev w ++ p.
Proof.
  induction r; simpl; intros p s p' s' H;
    try (destruct H as (_ & -> & ->); exists []; auto; fail).
  - destruct H as (c & -> & -> & _). exists [c]. auto.
  - destruct H as (w & -> & -> & _). exists w. auto.
  - destruct H as [H | [-> ->]]; [now apply IHr | exists []; auto].
  - destruct H as (p1 & s1 & H1 & H2).
    apply IHr1 in H1. apply IHr2 in H2.
    destruct H1 as (w1 & -> & ->). destruct H2 as (w2 & -> & ->).
    exists (w1 ++ w2). now rewrite rev_app_distr, <- !app_assoc.
  - destruct H as [H | H]; [now apply IHr1 | now apply IHr2].
  - destruct H as [-> ->]. exists []. auto.
  - now apply IHr.
Qed.

(** ** Greedy repetition, and replacing single characters *)

Lemma sub_succ_diag n : S n - n = 1.
Proof. lia. Qed.

Lemma run_le cs s : run cs s <= length s.
Proof.
  induction s as [|c s IH]; cbn [run length]; [lia|]. destruct (cs c); lia.
Qed.

(** A greedy repetition followed by a continuation that cannot fail takes
    the whole run, up to its upper bound. *)
Lemma rep_greedy cs s : forall lo hi p (g : list ascii -> list ascii -> state),
  wf (Rep cs lo hi) = true ->
  rep cs lo hi p s (fun p' s' => Some (g p' s')) =
  let n := cap_hi hi (run cs s) in
  if lo <=? n then Some (g (rev (firstn n s) ++ p) (skipn n s)) else None.
Proof.
  induction s as [|c s IH]; intros lo hi p g Hwf; cbn [wf] in Hwf.
  - destruct hi as [[|h]|]; destruct lo; cbn in *; try reflexivity; discriminate.
  - destruct hi as [[|h]|].
    + apply Nat.leb_le in Hwf. assert (lo = 0) by lia. subst lo. reflexivity.
    + apply Nat.leb_le in Hwf. cbn [rep run cap_hi option_map Nat.pred].
      destruct (cs c).
      * rewrite IH by (cbn [wf]; apply Nat.leb_le; lia).
        cbn [cap_hi]. cbv zeta. rewrite <- Nat.succ_min_distr.
        cbn [firstn skipn rev]. rewrite <- app_assoc. cbn [app].
        destruct lo as [|lo]; cbn [Nat.pred Nat.leb]; [|reflexivity].
        reflexivity.
      * rewrite Nat.min_0_r. destruct lo; reflexivity.
    + cbn [rep run cap_hi option_map].
      destruct (cs c).
      * rewrite IH by reflexivity. cbn [cap_hi]. cbv zeta.
        cbn [firstn skipn rev]. rewrite <- app_assoc. cbn [app].
        destruct lo as [|lo]; cbn [Nat.pred Nat.leb]; [|reflexivity].
        reflexivity.
      * destruct lo; reflexivity.
Qed.

(** Replacing every character of a class by nothing is filtering. *)
Lemma scan_Chr cs s : forall p,
  scan (Chr cs) p s 0 =
  map (fun c => if cs c then Matched [c] else Plain c) s.
Proof.
  induction s as [|c s IH]; intros p; [reflexivity|].
  cbn [scan match_here]. unfold match_here. cbn [m pre suf caps map].
  destruct (cs c).
  - cbn [suf length]. rewrite sub_succ_diag. cbn [firstn]. now rewrite IH.
  - now rewrite IH.
Qed.

Lemma replace_all_Chr_empty cs s :
  replace_all (Chr cs) (fun _ => []) s = filter (fun c => negb (cs c)) s.
Proof.
  unfold replace_all. rewrite scan_Chr.
  induction s as [|c s IH]; [reflexivity|].
  cbn [map flat_map filter]. rewrite IH. now destruct (cs c).
Qed.

(** ** [validateEmail] *)

Lemma test_anchored_Matches r s :
  anchored r = true -> wf r = true ->
  (test r s = true <-> exists p' s', Matches r [] s p' s').
Proof.
  intros Ha Hwf. rewrite test_anchored by assumption.
  rewrite <- match_here_spec by assumption.
  destruct (match_here r [] s); split; congruence.
Qed.

Lemma email_regex_shape s : test email_regex s = true <-> email_shape s.
Proof.
  rewrite test_anchored_Matches by reflexivity.
  unfold email_shape, email_regex, Between, Plus.
  cbn [Matches str list_ascii_of_string app]. split.
  - intros (p' & s' & p6 & s6 & (p5 & s5 & (p4 & s4 & (p3 & s3 & (p2 & s2 & (p1 & s1 &
      (_ & -> & ->) & (l & -> & -> & Hl & Hl1 & Hl2)) & (c1 & -> & -> & Hc1)) &
      (d & -> & -> & Hd & Hd1 & _)) & (c2 & -> & -> & Hc2)) &
      (t & -> & -> & Ht & Ht1 & Ht2)) & (-> & -> & _)).
    apply Ascii.eqb_eq in Hc1, Hc2. subst c1 c2. cbn [rev app].
    exists l, d, t. rewrite app_nil_r. repeat split; auto.
  - intros (l & d & t & -> & [Hl1 Hl2] & Hl & Hd1 & Hd & [Ht1 Ht2] & Ht).
    exists (rev t ++ "."%char :: rev d ++ "@"%char :: rev l ++ []), [].
    exists (rev t ++ "."%char :: rev d ++ "@"%char :: rev l ++ []), [].
    split; [|auto].
    exists ("."%char :: rev d ++ "@"%char :: rev l ++ []), t.
    split; [|exists t; rewrite app_nil_r; auto].
    exists (rev d ++ "@"%char :: rev l ++ []), ("."%char :: t).
    split; [|exists "."%char; auto].
    exists ("@"%char :: rev l ++ []), (d ++ "."%char :: t).
    split; [|exists d; repeat split; auto].
    exists (rev l ++ []), ("@"%char :: d ++ "."%char :: t).
    split; [|exists "@"%char; auto].
    exists [], (l ++ "@"%char :: d ++ "."%char :: t).
    split; [auto|]. exists l. auto.
Qed.

(** C8. [validateEmail] returns [true] exactly on the strings that are, from
    the first character to the last, a local part of 1 to 64 characters
    among the letters a-z and A-Z, the digits and [._%+-], then [@], then a
    domain of one or more characters among letters, digits, [.] and [-],
    then [.], then 2 to 63 letters.  The empty string and non-strings give
    [false]; the three examples of the specification are as stated. *)
Theorem validateEmail_spec :
  (forall v, validateEmail v = true <-> exists s, v = VString s /\ email_shape s) /\
  validateEmail (VString (str "user@domain.com")) = true /\
  validateEmail (VString (str "invalid@domain")) = false /\
  validateEmail (VString (str "")) = false /\
  validateEmail VOther = false.
Proof.
  split; [|repeat split; reflexivity].
  intros [[|c s]|]; simpl.
  - split; [discriminate|]. intros (s & Hs & (l & d & t & -> & [Hl _] & _)).
    inversion Hs as [Hnil]. destruct l; simpl in *; [lia | discriminate].
  - rewrite email_regex_shape. split.
    + intros H. eauto.
    + intros (s' & Hs & H). now inversion Hs; subst.
  - split; [discriminate|]. intros (s & Hs & _). discriminate.
Qed.

(** ** The validation results *)

Lemma every_met_Forall reqs :
  every_met reqs = true <-> Forall (fun q => met q = true) reqs.
Proof.
  unfold every_met. rewrite forallb_forall, Forall_forall. reflexivity.
Qed.

Lemma phone_result_shape v :
  (exists reqs, validateInternationalPhoneNumber v = mkResult (every_met reqs) reqs) \/
  validateInternationalPhoneNumber v = mkResult false phone_requirements_empty.
Proof.
  destruct v as [[|c s]|]; [right; reflexivity | | right; reflexivity].
  left. eexists. reflexivity.
Qed.

Lemma password_result_shape v :
  (exists reqs, checkPasswordStrength v = mkResult (every_met reqs) reqs) \/
  checkPasswordStrength v = mkResult false password_requirements_empty.
Proof.
  destruct v as [[|c s]|]; [right; reflexivity | | right; reflexivity].
  left. eexists. reflexivity.
Qed.

(** C5. For every input, string or not, the result of
    [validateInternationalPhoneNumber] and the result of
    [checkPasswordStrength] have [isValid = true] exactly when every
    requirement of their [requirements] sequence has [met = true]. *)
Theorem isValid_iff_every_requirement_met (v : value) :
  (isValid (validateInternationalPhoneNumber v) = true <->
   Forall (fun q => met q = true) (requirements (validateInternationalPhoneNumber v))) /\
  (isValid (checkPasswordStrength v) = true <->
   Forall (fun q => met q = true) (requirements (checkPasswordStrength v))).
Proof.
  split.
  - destruct (phone_result_shape v) as [[reqs ->] | ->]; simpl.
    + apply every_met_Forall.
    + split; [discriminate|]. intros H. inversion H. discriminate.
  - destruct (password_result_shape v) as [[reqs ->] | ->]; simpl.
    + apply every_met_Forall.
    + split; [discriminate|]. intros H. inversion H. discriminate.
Qed.

Lemma map_message_update i f l :
  (forall q, message (f q) = message q) ->
  map message (update i f l) = map message l.
Proof.
  intros Hf. revert i. induction l as [|q l IH]; intros [|i]; simpl; try reflexivity.
  - now rewrite Hf.
  - now rewrite IH.
Qed.

Lemma map_message_map f l :
  (forall q, message (f q) = message q) ->
  map message (map f l) = map message l.
Proof.
  intros Hf. rewrite map_map. apply map_ext. exact Hf.
Qed.

Lemma phone_messages v :
  map message (requirements (validateInternationalPhoneNumber v)) =
  [msg_prefix; msg_length; msg_charset; msg_country; msg_mobile].
Proof.
  destruct v as [[|c s]|]; try reflexivity.
  cbv beta iota zeta delta [validateInternationalPhoneNumber requirements].
  assert (Hinit :
    map message
      (map (fun req =>
              if negb (jsstring_eqb (message req) msg_mobile)
              then set_met (run_test req (c :: s)) req else req)
           phone_requirements_init) =
    [msg_prefix; msg_length; msg_charset; msg_country; msg_mobile]).
  { rewrite map_message_map; [reflexivity|].
    intros q. now destruct (negb _). }
  destruct (string_match re_country_code (c :: s)) as [groups|].
  - destruct (lookup _ countryRules) as [rules|];
      repeat (rewrite map_message_update by reflexivity); exact Hinit.
  - repeat (rewrite map_message_update by reflexivity). exact Hinit.
Qed.

Lemma password_messages_fixed v :
  map message (requirements (checkPasswordStrength v)) = password_messages.
Proof.
  destruct v as [[|c s]|]; reflexivity.
Qed.

(** C9. Whatever the input (empty and non-string inputs included), the
    requirements returned by [validateInternationalPhoneNumber] carry the
    same five messages in the same order, and those returned by
    [checkPasswordStrength] the same six messages in the same order. *)
Theorem requirement_messages_are_fixed (v : value) :
  map message (requirements (validateInternationalPhoneNumber v)) =
    map str [ "Must include country code (+ or 00)";
              "Valid length for the country";
              "Only digits, spaces, hyphens, or parentheses allowed";
              "Valid country code (e.g., +1, +254, +44)";
              "Valid mobile prefix for the country (if applicable)" ]%string /\
  map message (requirements (checkPasswordStrength v)) =
    map str [ "At least 8 characters";
              "At least one uppercase letter";
              "At least one lowercase letter";
              "At least one digit";
              "At least one special character";
              "No leading or trailing whitespace" ]%string.
Proof.
  split; [apply phone_messages | apply password_messages_fixed].
Qed.

(** ** The country code and the national number *)

Lemma firstn_nil_iff (n : nat) (l : jsstring) : firstn n l = [] <-> n = 0 \/ l = [].
Proof.
  destruct n, l; cbn; split; auto; try discriminate; intros [H|H]; discriminate.
Qed.

Lemma country_code_digits rest p cps :
  rep is_digit 1 (Some 3) p rest
      (fun p' s' => Some (set_cap 2 (mkState p rest cps) (mkState p' s' cps))) =
  match firstn (Nat.min 3 (run is_digit rest)) rest with
  | [] => None
  | cc => Some (mkState (rev cc ++ p) (skipn (Nat.min 3 (run is_digit rest)) rest)
                        ((2, cc) :: cps))
  end.
Proof.
  rewrite rep_greedy by reflexivity. cbv zeta. cbn [cap_hi].
  pose proof (run_le is_digit rest) as Hrun.
  set (n := Nat.min 3 (run is_digit rest)) in *.
  assert (Hn : n <= length rest) by (subst n; lia).
  unfold set_cap. cbn [pre suf caps].
  rewrite length_skipn.
  replace (length rest - (length rest - n)) with n by lia.
  destruct n as [|n'] eqn:En.
  - reflexivity.
  - destruct rest as [|d rest']; [cbn [length] in Hn; lia|].
    reflexivity.
Qed.

Lemma set_cap_1 n c p s cps :
  set_cap n (mkState p (c :: s) cps) (mkState (c :: p) s cps) =
  mkState (c :: p) s ((n, [c]) :: cps).
Proof.
  unfold set_cap. cbn [pre suf caps length]. now rewrite sub_succ_diag.
Qed.

Lemma set_cap_2 n c d p s cps :
  set_cap n (mkState p (c :: d :: s) cps) (mkState (d :: c :: p) s cps) =
  mkState (d :: c :: p) s ((n, [c; d]) :: cps).
Proof.
  unfold set_cap. cbn [pre suf caps length].
  now replace (S (S (length s)) - length s) with 2 by lia.
Qed.

Lemma jsstring_eqb_false a b : a <> b -> jsstring_eqb a b = false.
Proof.
  intros H. destruct (jsstring_eqb a b) eqn:E; [|reflexivity].
  apply jsstring_eqb_eq in E. contradiction.
Qed.

(** The country code the function reads is the one of the specification. *)
Lemma string_match_country_code s :
  match string_match re_country_code s with
  | Some groups => get_cap 2 groups
  | None => None
  end = country_code s /\
  (string_match re_country_code s = None <-> country_code s = None).
Proof.
  unfold string_match. rewrite exec_anchored by reflexivity.
  unfold country_code, strip_prefix, startsWith, match_here, re_country_code,
    plus_or_00, Between.
  cbn [m Lit pre suf caps str list_ascii_of_string length].
  destruct s as [|a s]; [split; [reflexivity | split; reflexivity]|].
  cbn [firstn]. unfold is_char.
  destruct (Ascii.eqb_spec "+" a) as [<-|Ha].
  - (* the string starts with + *)
    change (Ascii.eqb "0" "+") with false. cbv iota.
    rewrite set_cap_1. cbn [pre suf caps skipn].
    rewrite country_code_digits.
    replace (jsstring_eqb ["+"%char] ["+"%char]) with true by reflexivity.
    destruct (firstn _ s) as [|d cc]; simpl;
      (split; [reflexivity | split; intros H; first [discriminate H | reflexivity]]).
  - rewrite (@jsstring_eqb_false [a]) by congruence.
    cbn [or_else].
    destruct (Ascii.eqb_spec "0" a) as [<-|Ha0].
    + destruct s as [|b s].
      * split; [reflexivity | split; reflexivity].
      * destruct (Ascii.eqb_spec "0" b) as [<-|Hb].
        -- (* the string starts with 00 *)
           rewrite set_cap_2. cbn [pre suf caps skipn].
           rewrite country_code_digits.
           replace (jsstring_eqb ["0"%char; "0"%char] ["0"%char; "0"%char]) with true
             by reflexivity.
           destruct (firstn _ s) as [|d cc]; simpl;
             (split; [reflexivity | split; intros H; first [discriminate H | reflexivity]]).
        -- rewrite (@jsstring_eqb_false ["0"%char; b]) by congruence.
           split; [reflexivity | split; reflexivity].
    + rewrite (@jsstring_eqb_false (a :: firstn 1 s)) by congruence.
      split; [reflexivity | split; reflexivity].
Qed.

Lemma digits_only_filter s : digits_only s = filter is_digit s.
Proof.
  unfold digits_only. rewrite replace_all_Chr_empty.
  apply filter_ext. intros c. unfold cls_not. apply negb_involutive.
Qed.

(** [isValidLength], as the function computes it, is the length rule. *)
Lemma national_length_ok_rule s : national_length_ok s = national_length_rule s.
Proof.
  unfold national_length_ok, national_length_rule, national_number, slice_from.
  rewrite digits_only_filter.
  destruct (string_match_country_code s) as [Hcc Hnone].
  destruct (string_match re_country_code s) as [groups|].
  - rewrite <- Hcc. destruct (get_cap 2 groups) as [cc|] eqn:E; [reflexivity|].
    symmetry in Hcc. apply Hnone in Hcc. discriminate Hcc.
  - now rewrite (proj1 Hnone eq_refl).
Qed.

(** ** [validateInternationalPhoneNumber]: requirement 2 *)

Lemma requirements_after_tests phone :
  map (fun req =>
         if negb (jsstring_eqb (message req) msg_mobile)
         then set_met (run_test req phone) req
         else req)
      phone_requirements_init =
  [ mkReq (Some re_prefix) msg_prefix (test re_prefix phone);
    mkReq (Some re_length) msg_length (test re_length phone);
    mkReq (Some re_charset) msg_charset (test re_charset phone);
    mkReq (Some re_country) msg_country (test re_country phone);
    mkReq (Some re_anything) msg_mobile true ].
Proof. reflexivity. Qed.

Lemma requirement2_met_eq c s :
  requirement2_met (VString (c :: s)) =
  test re_length (c :: s) && national_length_ok (c :: s).
Proof.
  unfold requirement2_met, national_length_ok.
  cbv beta iota zeta delta [validateInternationalPhoneNumber requirements].
  rewrite requirements_after_tests.
  destruct (string_match re_country_code (c :: s)) as [groups|].
  - destruct (lookup _ countryRules) as [rules|]; reflexivity.
  - cbn. now rewrite andb_false_r.
Qed.

Lemma re_length_shape s : test re_length s = true <-> length_shape s.
Proof.
  rewrite test_anchored_Matches by reflexivity.
  unfold length_shape, country_prefix, re_length, plus_or_00, Between.
  cbn [Matches Lit str list_ascii_of_string]. split.
  - intros (p' & s' & p4 & s4 & (p3 & s3 & (p2 & s2 & (p1 & s1 & (_ & -> & ->) & Hpre) &
      (body & -> & -> & Hbody & Hlo & Hhi)) & (d & -> & -> & Hd)) & (-> & -> & _)).
    cbn [within] in Hhi.
    destruct Hpre as [(c & -> & -> & Hc) | (q1 & t1 & (c1 & -> & -> & Hc1) &
                                            (q2 & t2 & (c2 & -> & -> & Hc2) & (-> & <-)))].
    + apply Ascii.eqb_eq in Hc. subst c.
      exists ["+"%char], body, d. repeat split; auto.
    + apply Ascii.eqb_eq in Hc1, Hc2. subst c1 c2.
      exists ["0"%char; "0"%char], body, d. repeat split; auto.
  - intros (p & body & d & -> & Hp & [Hlo Hhi] & Hbody & Hd).
    exists (d :: rev body ++ rev p), [], (d :: rev body ++ rev p), []. split; [|auto].
    exists (rev body ++ rev p), [d]. split; [|exists d; auto].
    exists (rev p), (body ++ [d]). split; [|exists body; cbn [within]; auto].
    exists [], (p ++ body ++ [d]). split; [auto|].
    destruct Hp as [-> | ->]; cbn [str list_ascii_of_string app rev].
    + left. exists "+"%char. auto.
    + right. exists ["0"%char], ("0"%char :: body ++ [d]). split.
      * exists "0"%char. auto.
      * exists ["0"%char; "0"%char], (body ++ [d]). split; [|auto].
        exists "0"%char. auto.
Qed.

Lemma length_shape_needs_seven p body :
  country_prefix p -> length_shape (p ++ body) -> 7 <= length body.
Proof.
  intros Hp (p' & body' & d & E & Hp' & [Hlo _] & _).
  assert (Hlen : length body = length (body' ++ [d])).
  { destruct Hp as [-> | ->], Hp' as [-> | ->];
      cbn [str list_ascii_of_string app] in E; try discriminate E.
    - now injection E as ->.
    - now injection E as ->. }
  rewrite Hlen, length_app. cbn [length]. lia.
Qed.

(** C6, as the code has it.  Requirement 2 is met exactly when the string
    is a prefix ([+] or [00]), then 6 to 14 characters among digits, white
    space, hyphens and parentheses, then a final digit (7 to 15 characters
    after the prefix in all), and the national number passes the length
    rule of its country code.  With 6 characters or fewer after the prefix
    it is never met. *)
Theorem requirement2_met_iff :
  (forall v,
     requirement2_met v = true <->
     exists s, v = VString s /\ length_shape s /\ national_length_rule s = true) /\
  (forall p body,
     country_prefix p -> length body <= 6 ->
     requirement2_met (VString (p ++ body)) = false).
Proof.
  assert (H : forall v,
     requirement2_met v = true <->
     exists s, v = VString s /\ length_shape s /\ national_length_rule s = true).
  { intros [[|c s]|].
    - split; [discriminate|]. intros (s & Hs & _ & H). inversion Hs; subst. discriminate.
    - rewrite requirement2_met_eq, andb_true_iff, re_length_shape, national_length_ok_rule.
      split.
      + intros [H1 H2]. eauto.
      + intros (s' & Hs & H1 & H2). inversion Hs; subst. auto.
    - split; [discriminate|]. intros (s & Hs & _). discriminate. }
  split; [exact H|].
  intros p body Hp Hlen.
  destruct (requirement2_met (VString (p ++ body))) eqn:E; [|reflexivity].
  apply H in E. destruct E as (s & Hs & Hshape & _). injection Hs as <-.
  apply (length_shape_needs_seven _ Hp) in Hshape. lia.
Qed.

(** C6 as stated fails in both directions: 15 characters after the prefix
    meet requirement 2 although they are more than 14, and 6 such
    characters ending in a digit, with a national number that passes the
    length rule, do not. *)
Lemma requirement2_claimed_shape_fails :
  (requirement2_met (VString (str "+123456789012345")) = true /\
   ~ claimed_length_shape (str "+123456789012345")) /\
  (claimed_length_shape (str "009-1234") /\
   national_length_rule (str "009-1234") = true /\
   requirement2_met (VString (str "009-1234")) = false).
Proof.
  split; [split; [vm_compute; reflexivity|] | split; [|split; vm_compute; reflexivity]].
  - intros (p & body & Hs & [-> | ->] & [_ Hhi] & _);
      cbn [str list_ascii_of_string app] in Hs; [|discriminate].
    injection Hs as <-. cbn [length] in Hhi. lia.
  - exists (str "00"), (str "9-1234").
    split; [reflexivity|]. split; [right; reflexivity|].
    split; [cbn [str list_ascii_of_string length]; lia|].
    split; [reflexivity|].
    exists (str "9-123"), "4"%char. split; reflexivity.
Qed.

(** ** The mobile-prefix check on the three-digit country codes *)

Lemma digit_phone_char c : is_digit c = true -> phone_char c = true.
Proof. unfold phone_char, cls_or. now intros ->. Qed.

Lemma digits_phone_chars ds : forallb is_digit ds = true -> forallb phone_char ds = true.
Proof.
  induction ds as [|d ds IH]; [reflexivity|]. cbn [forallb].
  intros H. apply andb_prop in H. destruct H as [Hd Hds].
  now rewrite (digit_phone_char _ Hd), IH.
Qed.

Lemma filter_all (f : ascii -> bool) l : forallb f l = true -> filter f l = l.
Proof.
  induction l as [|c l IH]; [reflexivity|]. cbn [forallb filter].
  intros H. apply andb_prop in H. destruct H as [-> Hl]. now rewrite IH.
Qed.

Lemma re_charset_digits p ds :
  country_prefix p -> forallb is_digit ds = true -> test re_charset (p ++ ds) = true.
Proof.
  intros Hp Hds. apply test_anchored_Matches; [reflexivity | reflexivity |].
  unfold re_charset, plus_or_00, Star. cbn [Matches Lit str list_ascii_of_string].
  exists (rev ds ++ rev p), [], (rev ds ++ rev p), []. split; [|auto].
  exists (rev p), ds. split.
  - exists [], (p ++ ds). split; [auto|].
    destruct Hp as [-> | ->]; cbn [str list_ascii_of_string app rev].
    + left. exists "+"%char. auto.
    + right. exists ["0"%char], ("0"%char :: ds). split.
      * exists "0"%char. auto.
      * exists ["0"%char; "0"%char], ds. split; [|auto]. exists "0"%char. auto.
  - exists ds. rewrite app_nil_r. cbn [within].
    repeat split; auto using digits_phone_chars. lia.
Qed.

Lemma re_length_digits p ds :
  country_prefix p -> forallb is_digit ds = true -> 7 <= length ds <= 15 ->
  test re_length (p ++ ds) = true.
Proof.
  intros Hp Hds Hlen. apply re_length_shape.
  destruct (exists_last (l := ds)) as (body & d & ->).
  { intros ->. cbn [length] in Hlen. lia. }
  rewrite forallb_app in Hds. apply andb_prop in Hds. destruct Hds as [Hbody Hd].
  cbn [forallb] in Hd. rewrite andb_true_r in Hd.
  rewrite length_app in Hlen. cbn [length] in Hlen.
  exists p, body, d. repeat split; auto using digits_phone_chars; lia.
Qed.

Lemma three_digit_code_facts code rules ds :
  three_digit_code code -> lookup code countryRules = Some rules ->
  forallb is_digit ds = true ->
  length_matches (rule_length rules) (length ds) = true ->
  let phone := str "+" ++ code ++ ds in
  9 <= length ds <= 10 /\
  length (hd [] (mobilePrefixes rules)) = 2 /\
  test re_prefix phone = true /\
  test re_country phone = true /\
  country_code phone = Some code /\
  filter is_digit phone = code ++ ds /\
  length code = 3 /\
  exists c s, phone = c :: s.
Proof.
  intros Hcode Hrules Hds Hlen phone. subst phone.
  assert (Hfilter : forall p, filter is_digit (p ++ ds) = filter is_digit p ++ ds).
  { intros p. now rewrite filter_app, (filter_all _ _ Hds). }
  destruct Hcode as [-> | [-> | ->]];
    vm_compute in Hrules; injection Hrules as <-;
    cbn [rule_length length_matches] in Hlen; apply Nat.eqb_eq in Hlen;
    (split; [lia|]); (split; [reflexivity|]); (split; [reflexivity|]);
    (destruct ds as [|d1 ds']; [discriminate Hlen|]);
    cbn [forallb] in Hds; apply andb_prop in Hds; destruct Hds as [Hd1 Hds'];
    (split; [unfold test, exec, re_country, plus_or_00; cbn -[is_digit];
             now rewrite Hd1|]);
    (split; [unfold country_code, strip_prefix, startsWith;
             cbn [str list_ascii_of_string app length firstn skipn run];
             change (is_digit "2") with true; change (is_digit "3") with true;
             change (is_digit "4") with true; change (is_digit "5") with true;
             cbv iota; reflexivity|]);
    (split; [rewrite app_assoc, Hfilter; reflexivity|]);
    (split; [reflexivity|]); eexists; eexists; reflexivity.
Qed.

(** For the country codes 254, 255 and 234, a number written as [+], the
    code and a national number of digits of the expected length meets
    requirements 1 to 4, and requirement 5 exactly when its first two
    national digits are a listed mobile prefix. *)
Theorem three_digit_codes_check_mobile_prefix code rules ds :
  three_digit_code code -> lookup code countryRules = Some rules ->
  forallb is_digit ds = true ->
  length_matches (rule_length rules) (length ds) = true ->
  let result := validateInternationalPhoneNumber (VString (str "+" ++ code ++ ds)) in
  let listed := includes (mobilePrefixes rules) (firstn 2 ds) in
  map met (requirements result) = [true; true; true; true; listed] /\
  isValid result = listed.
Proof.
  intros Hcode Hrules Hds Hlen.
  destruct (@three_digit_code_facts code rules ds Hcode Hrules Hds Hlen)
    as (Hn & Hpl & T1 & T4 & Hcc & Hfilter & Hcl & c & s & Ephone).
  cbv zeta in *.
  assert (T2 : test re_length (str "+" ++ code ++ ds) = true).
  { apply re_length_digits; [now left | |].
    - rewrite forallb_app, Hds, andb_true_r.
      destruct Hcode as [-> | [-> | ->]]; reflexivity.
    - rewrite length_app. lia. }
  assert (T3 : test re_charset (str "+" ++ code ++ ds) = true).
  { apply re_charset_digits; [now left|].
    rewrite forallb_app, Hds, andb_true_r.
    destruct Hcode as [-> | [-> | ->]]; reflexivity. }
  assert (E : validateInternationalPhoneNumber (VString (str "+" ++ code ++ ds)) =
              mkResult (includes (mobilePrefixes rules) (firstn 2 ds))
                (update 1 (fun q => set_met (met q && true) q)
                   (update 4 (set_met (includes (mobilePrefixes rules) (firstn 2 ds)))
                      (update 4 (set_pattern (re_mobile code (mobilePrefixes rules)))
                         [ mkReq (Some re_prefix) msg_prefix true;
                           mkReq (Some re_length) msg_length true;
                           mkReq (Some re_charset) msg_charset true;
                           mkReq (Some re_country) msg_country true;
                           mkReq (Some re_anything) msg_mobile true ])))).
  { revert T1 T2 T3 T4 Hcc Hfilter. rewrite Ephone. intros T1 T2 T3 T4 Hcc Hfilter.
    cbv beta iota zeta delta [validateInternationalPhoneNumber].
    rewrite requirements_after_tests, T1, T2, T3, T4.
    destruct (string_match_country_code (c :: s)) as [Hg Hnone].
    rewrite Hcc in Hg.
    destruct (string_match re_country_code (c :: s)) as [groups|]; [|discriminate Hg].
    rewrite Hg, Hrules, digits_only_filter, Hfilter, Hcl.
    unfold slice_from, slice. rewrite Hpl.
    replace (skipn 3 (code ++ ds)) with ds
      by (destruct Hcode as [-> | [-> | ->]]; reflexivity).
    rewrite Hlen. cbn [Nat.sub skipn update set_met set_pattern met andb pattern message].
    unfold every_met. cbn [forallb met andb]. now rewrite andb_true_r. }
  rewrite E. split; reflexivity.
Qed.

(** The theorem at work on a Kenyan number with a listed prefix and on one
    with an unlisted prefix. *)
Lemma three_digit_codes_check_mobile_prefix_witness :
  isValid (validateInternationalPhoneNumber (VString (str "+254712345678"))) = true /\
  map met (requirements (validateInternationalPhoneNumber (VString (str "+254612345678")))) =
    [true; true; true; true; false].
Proof.
  split.
  - apply (@three_digit_codes_check_mobile_prefix
             (str "254")
             (mkRule (Exactly 9)
                (map str ["70"; "71"; "72"; "73"; "74"; "75"; "76"; "77"; "78"; "79"]%string))
             (str "712345678")); [left; reflexivity | reflexivity..].
  - apply (@three_digit_codes_check_mobile_prefix
             (str "254")
             (mkRule (Exactly 9)
                (map str ["70"; "71"; "72"; "73"; "74"; "75"; "76"; "77"; "78"; "79"]%string))
             (str "612345678")); [left; reflexivity | reflexivity..].
Defined.

(** ** The mobile-prefix check on the one- and two-digit country codes *)

Lemma requirement5_met_eq c s :
  requirement5_met (VString (c :: s)) =
  match country_code (c :: s) with
  | Some cc =>
      match lookup cc countryRules with
      | Some rules =>
          includes (mobilePrefixes rules)
            (firstn (length (hd [] (mobilePrefixes rules))) (national_number (c :: s) cc))
      | None => true
      end
  | None => true
  end.
Proof.
  unfold requirement5_met, national_number.
  cbv beta iota zeta delta [validateInternationalPhoneNumber requirements].
  rewrite requirements_after_tests.
  destruct (string_match_country_code (c :: s)) as [Hcc Hnone].
  destruct (string_match re_country_code (c :: s)) as [groups|].
  - rewrite <- Hcc. destruct (get_cap 2 groups) as [cc|] eqn:E.
    + destruct (lookup cc countryRules) as [rules|]; [|reflexivity].
      rewrite digits_only_filter. unfold slice, slice_from.
      now rewrite Nat.sub_0_r.
    + symmetry in Hcc. apply Hnone in Hcc. discriminate Hcc.
  - now rewrite (proj1 Hnone eq_refl).
Qed.

Lemma short_code_not_looked_up code ds :
  short_code code -> forallb is_digit ds = true -> 2 <= length ds ->
  exists cc, country_code (str "+" ++ code ++ ds) = Some cc /\
             length cc = 3 /\ lookup cc countryRules = None.
Proof.
  intros Hcode Hds Hlen.
  destruct ds as [|d1 [|d2 ds']]; try (cbn [length] in Hlen; lia).
  cbn [forallb] in Hds.
  apply andb_prop in Hds. destruct Hds as [Hd1 Hds].
  apply andb_prop in Hds. destruct Hds as [Hd2 _].
  unfold short_code in Hcode. cbn [map In] in Hcode.
  repeat (destruct Hcode as [<- | Hcode]); try contradiction;
    unfold country_code, strip_prefix, startsWith;
    cbn -[is_digit lookup Nat.min]; rewrite ?Hd1, ?Hd2;
    cbn -[is_digit lookup]; eexists; (split; [reflexivity|]);
    (split; [reflexivity|]); vm_compute; reflexivity.
Qed.

Lemma short_code_tests code rules ds :
  short_code code -> lookup code countryRules = Some rules ->
  forallb is_digit ds = true ->
  length_matches (rule_length rules) (length ds) = true ->
  let phone := str "+" ++ code ++ ds in
  9 <= length ds <= 11 /\
  1 <= length code <= 2 /\
  forallb is_digit code = true /\
  test re_prefix phone = true /\
  test re_country phone = true /\
  filter is_digit phone = code ++ ds.
Proof.
  intros Hcode Hrules Hds Hlen phone. subst phone.
  assert (Hfilter : forall p, filter is_digit (p ++ ds) = filter is_digit p ++ ds).
  { intros p. now rewrite filter_app, (filter_all _ _ Hds). }
  unfold short_code in Hcode. cbn [map In] in Hcode.
  repeat (destruct Hcode as [<- | Hcode]); try contradiction;
    vm_compute in Hrules; injection Hrules as <-;
    cbn [rule_length length_matches existsb] in Hlen;
    (assert (Hn : 9 <= length ds <= 11)
       by (repeat (apply orb_prop in Hlen; destruct Hlen as [Hlen | Hlen]);
           try discriminate Hlen; apply Nat.eqb_eq in Hlen; lia));
    (split; [exact Hn|]); (split; [cbn [str list_ascii_of_string length]; lia|]);
    (split; [reflexivity|]); (split; [reflexivity|]);
    (destruct ds as [|d1 ds']; [cbn [length] in Hn; lia|]);
    cbn [forallb] in Hds; apply andb_prop in Hds; destruct Hds as [Hd1 Hds'];
    (split; [unfold test, exec, re_country, plus_or_00; cbn -[is_digit];
             now rewrite Hd1|]);
    rewrite app_assoc, Hfilter; reflexivity.
Qed.

(** With a one- or two-digit country code, a number written as [+], the
    code and a national number of digits of the expected length is valid,
    whatever its first national digits are. *)
Lemma short_code_valid code rules ds :
  short_code code -> lookup code countryRules = Some rules ->
  forallb is_digit ds = true ->
  length_matches (rule_length rules) (length ds) = true ->
  map met (requirements (validateInternationalPhoneNumber (VString (str "+" ++ code ++ ds))))
    = [true; true; true; true; true] /\
  isValid (validateInternationalPhoneNumber (VString (str "+" ++ code ++ ds))) = true.
Proof.
  intros Hcode Hrules Hds Hlen.
  destruct (@short_code_tests code rules ds Hcode Hrules Hds Hlen)
    as (Hn & Hcl & Hcd & T1 & T4 & Hfilter).
  cbv zeta in *.
  destruct (@short_code_not_looked_up code ds Hcode Hds ltac:(lia))
    as (cc & Hcc & Hccl & Hnone).
  assert (Hall : forallb is_digit (code ++ ds) = true)
    by (now rewrite forallb_app, Hcd, Hds).
  assert (T2 : test re_length (str "+" ++ code ++ ds) = true).
  { apply re_length_digits; [now left | exact Hall | rewrite length_app; lia]. }
  assert (T3 : test re_charset (str "+" ++ code ++ ds) = true).
  { apply re_charset_digits; [now left | exact Hall]. }
  assert (E : validateInternationalPhoneNumber (VString (str "+" ++ code ++ ds)) =
              mkResult true
                [ mkReq (Some re_prefix) msg_prefix true;
                  mkReq (Some re_length) msg_length true;
                  mkReq (Some re_charset) msg_charset true;
                  mkReq (Some re_country) msg_country true;
                  mkReq (Some re_anything) msg_mobile true ]).
  { revert T1 T2 T3 T4 Hcc Hfilter.
    change (str "+" ++ code ++ ds) with ("+"%char :: code ++ ds).
    intros T1 T2 T3 T4 Hcc Hfilter.
    cbv beta iota zeta delta [validateInternationalPhoneNumber].
    rewrite requirements_after_tests, T1, T2, T3, T4.
    destruct (string_match_country_code ("+"%char :: code ++ ds)) as [Hg Hnone'].
    rewrite Hcc in Hg.
    destruct (string_match re_country_code ("+"%char :: code ++ ds)) as [groups|];
      [|discriminate Hg].
    rewrite Hg, Hnone, digits_only_filter, Hfilter, Hccl.
    unfold slice_from. rewrite length_skipn, length_app.
    replace ((6 <=? length code + length ds - 3) && (length code + length ds - 3 <=? 14))
      with true
      by (symmetry; apply andb_true_intro; split; apply Nat.leb_le; lia).
    reflexivity. }
  rewrite E. split; reflexivity.
Qed.

(** C2 (the code departs from it).  The country code is read as the longest
    run of up to three digits after the prefix, so in a number written
    without separators a one- or two-digit code is read together with the
    first national digits and is not found in the table: requirement 5 is
    met, and a number of the expected length is valid, whatever the
    national digits are.  ["+12025550123"] is valid, but
    so is ["+12035550123"], whose prefix 203 is not listed.  Only for the
    three-digit codes does an unlisted prefix fail requirement 5
    (["+254612345678"]). *)
Theorem unlisted_prefix_accepted_for_short_codes :
  isValid (validateInternationalPhoneNumber (VString (str "+12025550123"))) = true /\
  map met (requirements (validateInternationalPhoneNumber (VString (str "+12035550123"))))
    = [true; true; true; true; true] /\
  isValid (validateInternationalPhoneNumber (VString (str "+12035550123"))) = true /\
  country_code (str "+12035550123") = Some (str "120") /\
  map met (requirements (validateInternationalPhoneNumber (VString (str "+254612345678"))))
    = [true; true; true; true; false] /\
  (forall code ds,
     short_code code -> forallb is_digit ds = true -> 2 <= length ds ->
     requirement5_met (VString (str "+" ++ code ++ ds)) = true) /\
  (forall code rules ds,
     short_code code -> lookup code countryRules = Some rules ->
     forallb is_digit ds = true ->
     length_matches (rule_length rules) (length ds) = true ->
     isValid (validateInternationalPhoneNumber (VString (str "+" ++ code ++ ds))) = true).
Proof.
  do 5 (split; [vm_compute; reflexivity|]).
  split; [|intros code rules ds H1 H2 H3 H4; now apply (@short_code_valid code rules ds)].
  intros code ds Hcode Hds Hlen.
  destruct (@short_code_not_looked_up code ds Hcode Hds Hlen) as (cc & Hcc & _ & Hnone).
  change (str "+" ++ code ++ ds) with ("+"%char :: code ++ ds) in *.
  now rewrite requirement5_met_eq, Hcc, Hnone.
Qed.

(** ** [formatPhoneNumber] *)

Lemma replace_first_00 s :
  replace_first re_00 (str "+") s =
  if startsWith (str "00") s then str "+" ++ skipn 2 s else s.
Proof.
  unfold replace_first. rewrite exec_anchored by reflexivity.
  unfold startsWith, match_here, re_00.
  cbn [m Lit pre suf caps str list_ascii_of_string length].
  destruct (jsstring_eqb _ _) eqn:E.
  - apply jsstring_eqb_eq in E.
    destruct s as [|a [|b t]]; try discriminate.
    cbn [firstn] in E. injection E as -> ->. reflexivity.
  - destruct s as [|a [|b t]]; try reflexivity.
    + now destruct (is_char "0" a).
    + unfold is_char.
      destruct (Ascii.eqb_spec "0" a) as [<-|Ha]; [|reflexivity].
      destruct (Ascii.eqb_spec "0" b) as [<-|Hb]; [|reflexivity].
      discriminate E.
Qed.

Lemma re_formatted_plus_digits s : test re_formatted s = plus_digits s.
Proof.
  apply eq_true_iff_eq.
  rewrite test_anchored_Matches by reflexivity.
  unfold re_formatted, Between. cbn [Matches]. split.
  - intros (p' & s' & p3 & s3 & (p2 & s2 & (p1 & s1 & (_ & -> & ->) &
      (c & -> & -> & Hc)) & (ds & -> & -> & Hds & Hlo & Hhi)) & (-> & -> & _)).
    cbn [plus_digits]. rewrite app_nil_r, Hc, Hds. cbn [within] in Hhi.
    apply Nat.leb_le in Hlo, Hhi. now rewrite Hlo, Hhi.
  - destruct s as [|c ds]; [discriminate|]. cbn [plus_digits].
    intros H. bool_hyps. subst c.
    exists (rev ds ++ ["+"%char]), [], (rev ds ++ ["+"%char]), []. split; [|auto].
    exists ["+"%char], ds. split.
    + exists [], ("+"%char :: ds). split; [auto|]. exists "+"%char. auto.
    + exists ds. rewrite app_nil_r. cbn [within]. auto.
Qed.

Lemma formatPhoneNumber_refines v : formatPhoneNumber v = formatPhoneNumber_steps v.
Proof.
  destruct v as [[|c s]|]; try reflexivity.
  unfold formatPhoneNumber, formatPhoneNumber_steps, format_steps. cbn [length Nat.eqb].
  rewrite replace_first_00. unfold re_separator. rewrite replace_all_Chr_empty.
  rewrite re_formatted_plus_digits. reflexivity.
Qed.

Lemma claimed_separator_space c :
  is_separator c = is_claimed_separator c \/ (is_space c = true /\ c <> " "%char).
Proof.
  destruct c as [[] [] [] [] [] [] [] []];
    ((left; vm_compute; reflexivity) ||
     (right; split; [vm_compute; reflexivity | discriminate])).
Qed.

Lemma format_steps_space_only s :
  (forall c, In c s -> is_space c = true -> c = " "%char) ->
  formatPhoneNumber_claimed (VString s) = formatPhoneNumber_steps (VString s).
Proof.
  intros Hs. unfold formatPhoneNumber_claimed, formatPhoneNumber_steps, format_steps.
  destruct (length s =? 0); [reflexivity|]. cbv zeta.
  replace (filter (fun c => negb (is_claimed_separator c))
             (if startsWith (str "00") s then str "+" ++ skipn 2 s else s))
    with (filter (fun c => negb (is_separator c))
             (if startsWith (str "00") s then str "+" ++ skipn 2 s else s));
    [reflexivity|].
  apply filter_ext_in. intros c Hin.
  assert (Hc : In c s \/ c = "+"%char).
  { destruct (startsWith (str "00") s); [|now left].
    destruct Hin as [<- | Hin]; [now right | left].
    rewrite <- (firstn_skipn 2 s). apply in_or_app. now right. }
  destruct (claimed_separator_space c) as [-> | [Hsp Hne]]; [reflexivity|].
  destruct Hc as [Hc | ->]; [|discriminate Hsp].
  now apply Hs in Hc.
Qed.

(** C7, as the code has it.  [formatPhoneNumber] computes the five steps in
    their order: a leading [00] becomes [+]; every white-space character
    (the whole class [\s], not the space alone), hyphen and parenthesis is
    stripped; the result is the empty string unless it starts with [+] and
    is [+] followed by exactly 6 to 15 digits.  Non-string and empty inputs
    give the empty string.  On a string whose only white space is spaces
    this is what the steps of C7 compute. *)
Theorem formatPhoneNumber_follows_steps :
  (forall v, formatPhoneNumber v = formatPhoneNumber_steps v) /\
  (forall s, (forall c, In c s -> is_space c = true -> c = " "%char) ->
             formatPhoneNumber (VString s) = formatPhoneNumber_claimed (VString s)) /\
  formatPhoneNumber VOther = [] /\
  formatPhoneNumber (VString []) = [] /\
  formatPhoneNumber (VString (str "+1 (202) 555-0123")) = str "+12025550123" /\
  formatPhoneNumber (VString (str "123456")) = str "".
Proof.
  split; [exact formatPhoneNumber_refines|].
  split; [|repeat split; vm_compute; reflexivity].
  intros s Hs. now rewrite formatPhoneNumber_refines, format_steps_space_only.
Qed.

(** C7 as stated fails on white space other than the space: the source
    strips the tab of ["+12<TAB>34567"] and returns ["+1234567"], where the
    steps of C7 keep the tab and so return the empty string. *)
Lemma formatPhoneNumber_claimed_separators_fail :
  formatPhoneNumber (VString (str "+12" ++ ["009"%char] ++ str "34567")) = str "+1234567" /\
  formatPhoneNumber_claimed (VString (str "+12" ++ ["009"%char] ++ str "34567")) = [] /\
  formatPhoneNumber (VString (str "+12" ++ ["009"%char] ++ str "34567")) <>
  formatPhoneNumber_claimed (VString (str "+12" ++ ["009"%char] ++ str "34567")).
Proof.
  split; [vm_compute; reflexivity|]. split; [vm_compute; reflexivity|].
  vm_compute. discriminate.
Qed.

Lemma formatPhoneNumber_output v :
  formatPhoneNumber v = [] \/ plus_digits (formatPhoneNumber v) = true.
Proof.
  rewrite formatPhoneNumber_refines.
  destruct v as [s|]; [|left; reflexivity].
  unfold formatPhoneNumber_steps, format_steps.
  destruct (length s =? 0); [left; reflexivity|]. cbv zeta.
  destruct (negb (startsWith _ _)); [left; reflexivity|].
  destruct (plus_digits _) eqn:E; [right; exact E | left; reflexivity].
Qed.

Lemma digit_not_separator c : is_digit c = true -> is_separator c = false.
Proof.
  unfold is_digit, is_separator, is_space, one_of, in_range, is_char.
  cbn [str list_ascii_of_string existsb].
  intros H. apply andb_prop in H. destruct H as [H1 H2].
  apply Nat.leb_le in H1, H2.
  repeat match goal with
         | |- context [Ascii.eqb ?a ?b] =>
             destruct (Ascii.eqb_spec a b) as [->|_]; [vm_compute in H1, H2; lia|]
         end.
  repeat match goal with
         | |- context [?a <=? ?b] => destruct (Nat.leb_spec a b)
         | |- context [?a =? ?b] => destruct (Nat.eqb_spec a b)
         end; try reflexivity; lia.
Qed.

Lemma filter_digits ds :
  forallb is_digit ds = true ->
  filter (fun c => negb (is_separator c)) ds = ds.
Proof.
  induction ds as [|c ds IH]; [reflexivity|]. cbn [forallb filter].
  intros H. apply andb_prop in H. destruct H as [Hc Hds].
  now rewrite (digit_not_separator _ Hc), IH.
Qed.

Lemma plus_digits_fixed s :
  plus_digits s = true -> formatPhoneNumber (VString s) = s.
Proof.
  intros H. rewrite formatPhoneNumber_refines.
  destruct s as [|c ds]; [discriminate|].
  pose proof H as H0. cbn [plus_digits] in H. bool_hyps. subst c.
  unfold formatPhoneNumber_steps, format_steps. cbn [length Nat.eqb].
  replace (startsWith (str "00") ("+"%char :: ds)) with false
    by (now destruct ds as [|d ds']).
  cbv zeta. cbn [filter]. change (is_separator "+") with false. cbn [negb].
  rewrite filter_digits, H0 by assumption. reflexivity.
Qed.

(** C10. [formatPhoneNumber] is idempotent: what it returns is either the
    empty string, which it maps to the empty string, or [+] followed by 6
    to 15 digits, which it returns unchanged. *)
Theorem formatPhoneNumber_idempotent (v : value) :
  formatPhoneNumber (VString (formatPhoneNumber v)) = formatPhoneNumber v /\
  (formatPhoneNumber v = [] \/
   exists ds, formatPhoneNumber v = str "+" ++ ds /\
              6 <= length ds <= 15 /\ forallb is_digit ds = true).
Proof.
  destruct (formatPhoneNumber_output v) as [E | E].
  - rewrite E. split; [reflexivity | left; reflexivity].
  - split; [now apply plus_digits_fixed|]. right.
    destruct (formatPhoneNumber v) as [|c ds]; [discriminate|].
    cbn [plus_digits] in E. bool_hyps. subst c.
    exists ds. auto.
Qed.

(** ** [checkPasswordComplexity] *)

Lemma complexity_no_match_at_start s : match_here re_complexity [] s = None.
Proof.
  destruct s as [|c s]; [reflexivity|].
  unfold match_here, re_complexity. cbn [m pre suf caps].
  destruct (is_space c); [reflexivity|].
  destruct (is_Lu c) eqn:HLu; [|reflexivity].
  assert (Hn : not_letter_number c = false).
  { unfold not_letter_number, cls_not, cls_or, is_L. now rewrite HLu. }
  rewrite Hn.
  repeat match goal with
         | |- match ?X with _ => _ end = None => destruct X
         end; reflexivity.
Qed.

(** C1 (the code departs from it).  The four lookaheads of the pattern are
    all tried at index 0 and each inspects the first character only, so
    the first character would have to be an uppercase letter, a lowercase
    letter, a number and a non-letter at once: [checkPasswordComplexity]
    returns [false] on every input, on ["Pass123!@#"] in particular. *)
Theorem checkPasswordComplexity_never_true :
  checkPasswordComplexity (VString (str "Pass123!@#")) = false /\
  forall v, checkPasswordComplexity v = false.
Proof.
  assert (H : forall v, checkPasswordComplexity v = false).
  { intros [[|c s]|]; try reflexivity.
    unfold checkPasswordComplexity.
    rewrite test_anchored by reflexivity.
    now rewrite complexity_no_match_at_start. }
  split; [apply H | exact H].
Qed.

(** ** [cleanString]: collapsing and trimming white space *)

Lemma match_here_spaces p s :
  match_here re_spaces p s =
  if 1 <=? run is_space s
  then Some (mkState (rev (firstn (run is_space s) s) ++ p) (skipn (run is_space s) s) [])
  else None.
Proof.
  unfold match_here, re_spaces, Plus. cbn [m pre suf caps].
  now rewrite rep_greedy by reflexivity.
Qed.

Lemma scan_spaces s : forall p,
  flat_map (render (fun _ => str " ")) (scan re_spaces p s 0) = squeeze false s /\
  flat_map (render (fun _ => str " ")) (scan re_spaces p s (run is_space s)) = squeeze true s.
Proof.
  induction s as [|c s IH]; intros p; [split; reflexivity|].
  assert (H0 : flat_map (render (fun _ => str " ")) (scan re_spaces p (c :: s) 0) =
               squeeze false (c :: s)).
  { cbn [scan]. rewrite match_here_spaces. cbn [run squeeze].
    destruct (is_space c).
    - cbn [Nat.leb suf skipn length].
      rewrite length_skipn.
      replace (S (length s) - (length s - run is_space s)) with (S (run is_space s))
        by (pose proof (run_le is_space s); lia).
      cbn [flat_map render app]. destruct (IH (c :: p)) as [_ ->]. reflexivity.
    - cbn [Nat.leb flat_map render app]. destruct (IH (c :: p)) as [-> _]. reflexivity. }
  split; [exact H0|].
  cbn [run]. destruct (is_space c) eqn:Hc.
  - cbn [scan squeeze]. rewrite Hc. apply IH.
  - rewrite H0. cbn [squeeze]. now rewrite Hc.
Qed.

Lemma collapse_squeeze s :
  replace_all re_spaces (fun _ => str " ") s = squeeze false s.
Proof. unfold replace_all. apply (scan_spaces s []). Qed.

Lemma spaced_squeeze s : forall b, spaced b (squeeze b s) = true.
Proof.
  induction s as [|c s IH]; intros b; [reflexivity|].
  cbn [squeeze]. destruct (is_space c) eqn:Hc.
  - destruct b; [apply IH|].
    cbn [spaced]. change (is_space " ") with true. cbn. apply IH.
  - cbn [spaced]. rewrite Hc. apply IH.
Qed.

Lemma spaced_drop_while s :
  spaced false s = true -> spaced true (drop_while is_space s) = true.
Proof.
  destruct s as [|c s]; [reflexivity|].
  cbn [spaced drop_while]. destruct (is_space c) eqn:Hc.
  - cbn [negb andb]. intros H. apply andb_prop in H. destruct H as [_ H].
    destruct s as [|d s]; [reflexivity|].
    cbn [drop_while]. destruct (is_space d) eqn:Hd; [|exact H].
    cbn [spaced] in H. rewrite Hd in H. discriminate H.
  - cbn [spaced]. now rewrite Hc.
Qed.

Lemma normal_trim_end s : forall b,
  spaced b s = true -> trim_end s = [] \/ normal b (trim_end s) = true.
Proof.
  induction s as [|c s IH]; intros b H; [left; reflexivity|].
  cbn [trim_end]. cbn [spaced] in H.
  destruct (is_space c) eqn:Hc.
  - apply andb_prop in H. destruct H as [Hb H].
    destruct (IH true H) as [E | E].
    + rewrite E. now left.
    + destruct (trim_end s) as [|d t] eqn:Et; [now left|].
      right. cbn [normal]. now rewrite Hc, Hb.
  - destruct (IH false H) as [E | E].
    + rewrite E. right. cbn [normal]. now rewrite Hc.
    + destruct (trim_end s) as [|d t] eqn:Et; right; cbn [normal]; now rewrite Hc.
Qed.

(** The first step of [cleanString] yields the empty string or a string
    in normal form. *)
Lemma normal_after_first_step s :
  let t := trim (replace_all re_spaces (fun _ => str " ") s) in
  t = [] \/ normal true t = true.
Proof.
  cbv zeta. rewrite collapse_squeeze. unfold trim.
  apply normal_trim_end, spaced_drop_while, spaced_squeeze.
Qed.

Lemma normal_squeeze s : forall b, normal b s = true -> squeeze b s = s.
Proof.
  induction s as [|c s IH]; intros b H; [reflexivity|].
  cbn [normal] in H. cbn [squeeze]. destruct (is_space c).
  - apply andb_prop in H. destruct H as [H Hs].
    apply andb_prop in H. destruct H as [Hb Hc].
    apply Ascii.eqb_eq in Hc. subst c.
    destruct b; [discriminate|]. now rewrite IH.
  - now rewrite IH.
Qed.

Lemma normal_weaken s : normal true s = true -> normal false s = true.
Proof.
  destruct s as [|c s]; [discriminate|]. cbn [normal].
  destruct (is_space c); [discriminate | auto].
Qed.

Lemma normal_trim_end_fixed s : forall b, normal b s = true -> trim_end s = s.
Proof.
  induction s as [|c s IH]; intros b H; [reflexivity|].
  cbn [normal] in H. cbn [trim_end]. destruct (is_space c) eqn:Hc.
  - apply andb_prop in H. destruct H as [_ Hs].
    rewrite (IH true Hs). destruct s; [discriminate Hs | reflexivity].
  - rewrite (IH false H). destruct s; reflexivity.
Qed.

(** A string in normal form is left alone by the first step. *)
Lemma first_step_fixed s :
  normal true s = true ->
  trim (replace_all re_spaces (fun _ => str " ") s) = s.
Proof.
  intros H. rewrite collapse_squeeze.
  rewrite (normal_squeeze s false (normal_weaken s H)). unfold trim.
  replace (drop_while is_space s) with s.
  - now apply normal_trim_end_fixed with (b := true).
  - destruct s as [|c s]; [reflexivity|]. cbn [normal] in H. cbn [drop_while].
    now destruct (is_space c).
Qed.

(** ** Matching is blind to what the classes cannot tell apart

    If a relation [R] on characters is respected by every class of a
    pattern (and by [\w], for [\b]), then the matcher takes the same
    decisions on two inputs related character by character. *)

Section Relabelling.

Variable R : ascii -> ascii -> Prop.
Hypothesis R_word : forall c c', R c c' -> is_word c = is_word c'.

Local Abbreviation respects_class := (respects_class R).
Local Abbreviation respects := (respects R).
Local Abbreviation rel_state := (rel_state R).
Local Abbreviation rel_result := (rel_result R).

Lemma Forall2_rev (l l' : list ascii) : Forall2 R l l' -> Forall2 R (rev l) (rev l').
Proof.
  induction 1; cbn [rev]; [constructor|].
  apply Forall2_app; [assumption | repeat constructor; assumption].
Qed.

Lemma Forall2_firstn n : forall (l l' : list ascii),
  Forall2 R l l' -> Forall2 R (firstn n l) (firstn n l').
Proof.
  induction n as [|n IH]; intros l l' H; [constructor|].
  destruct H; cbn [firstn]; constructor; auto.
Qed.

Lemma Forall2_skipn n : forall (l l' : list ascii),
  Forall2 R l l' -> Forall2 R (skipn n l) (skipn n l').
Proof.
  induction n as [|n IH]; intros l l' H; [exact H|].
  destruct H; cbn [skipn]; [constructor | auto].
Qed.

Lemma hd_is_rel cs (l l' : list ascii) :
  respects_class cs -> Forall2 R l l' -> hd_is cs l = hd_is cs l'.
Proof. intros Hcs [|c c' t t' Hc _]; [reflexivity | now apply Hcs]. Qed.

Lemma or_else_rel a a' b b' :
  rel_result a a' -> rel_result b b' -> rel_result (or_else a b) (or_else a' b').
Proof. destruct a, a'; simpl; tauto. Qed.

Lemma rep_rel cs : respects_class cs ->
  forall s s', Forall2 R s s' ->
  forall lo hi p p' k k',
    Forall2 R p p' ->
    (forall q q' t t', Forall2 R q q' -> Forall2 R t t' -> rel_result (k q t) (k' q' t')) ->
    rel_result (rep cs lo hi p s k) (rep cs lo hi p' s' k').
Proof.
  intros Hcs s s' Hs. induction Hs as [|c c' s s' Hc Hs IH]; intros lo hi p p' k k' Hp Hk.
  - cbn [rep]. destruct hi as [[|h]|]; destruct lo; simpl; auto using Forall2_nil.
  - cbn [rep]. rewrite <- (Hcs c c' Hc).
    assert (Hstop : rel_result (k p (c :: s)) (k' p' (c' :: s'))).
    { apply Hk; [assumption | now constructor]. }
    assert (Hmore : forall lo' hi',
      rel_result (if cs c then rep cs lo' hi' (c :: p) s k else None)
                 (if cs c then rep cs lo' hi' (c' :: p') s' k' else None)).
    { intros lo' hi'. destruct (cs c); [|exact I].
      apply IH; [now constructor | exact Hk]. }
    destruct hi as [[|h]|]; [exact Hstop | |];
      (destruct lo; [apply or_else_rel; [apply Hmore | exact Hstop] | apply Hmore]).
Qed.

Lemma m_rel r : respects r ->
  forall x x' k k',
    rel_state x x' ->
    (forall y y', rel_state y y' -> rel_result (k y) (k' y')) ->
    rel_result (m r x k) (m r x' k').
Proof.
  induction r; intros Hr x x' k k' Hx Hk; cbn [respects] in Hr; cbn [m];
    pose proof Hx as [Hp Hs].
  - destruct Hs as [|c c' s s' Hc Hs]; [exact I|].
    rewrite <- (Hr c c' Hc). destruct (cs c); [|exact I].
    apply Hk. split; cbn [pre suf]; [now constructor | assumption].
  - apply rep_rel; auto. intros q q' t t' Hq Ht. apply Hk. now split.
  - apply or_else_rel; [now apply IHr | now apply Hk].
  - destruct Hr as [Hr1 Hr2]. apply IHr1; [exact Hr1 | exact Hx |].
    intros y y' Hy. now apply IHr2.
  - destruct Hr as [Hr1 Hr2]. apply or_else_rel; [now apply IHr1 | now apply IHr2].
  - now apply Hk.
  - apply IHr; [exact Hr | exact Hx |]. intros y y' [Hyp Hys]. apply Hk. now split.
  - destruct Hp; [now apply Hk | exact I].
  - destruct Hs; [now apply Hk | exact I].
  - unfold at_word_boundary.
    rewrite (@hd_is_rel is_word _ _ R_word Hp), (@hd_is_rel is_word _ _ R_word Hs).
    destruct (xorb _ _); [now apply Hk | exact I].
  - assert (H : rel_result (m r x Some) (m r x' Some)).
    { apply IHr; auto. }
    destruct (m r x Some), (m r x' Some); simpl in H; try tauto.
    apply Hk. now split.
  - assert (H : rel_result (m r x Some) (m r x' Some)).
    { apply IHr; auto. }
    destruct (m r x Some), (m r x' Some); simpl in H; try tauto; [exact I|].
    now apply Hk.
  - rewrite (@hd_is_rel cs _ _ Hr Hp). destruct (hd_is cs (pre x')); [exact I | now apply Hk].
Qed.

Lemma match_here_rel r p p' s s' :
  respects r -> Forall2 R p p' -> Forall2 R s s' ->
  rel_result (match_here r p s) (match_here r p' s').
Proof.
  intros Hr Hp Hs. unfold match_here. apply m_rel; auto. now split.
Qed.

End Relabelling.

(** ** Replacing every match by a text of the same shape, twice *)

Lemma scan_skip r s : forall p k,
  k <= length s ->
  scan r p s k = scan r (rev (firstn k s) ++ p) (skipn k s) 0.
Proof.
  induction s as [|c s IH]; intros p k Hk.
  - cbn [length] in Hk. now replace k with 0 by lia.
  - destruct k as [|k]; [reflexivity|].
    cbn [scan firstn skipn rev length] in *. rewrite <- app_assoc.
    apply IH. lia.
Qed.

Lemma scan_unfold r p s :
  scan r p s 0 =
  match match_here r p s with
  | Some y =>
      let n := length s - length (suf y) in
      Matched (firstn n s) ::
        match n with
        | 0 => match s with c :: s' => Plain c :: scan r (c :: p) s' 0 | [] => [] end
        | S _ => scan r (rev (firstn n s) ++ p) (skipn n s) 0
        end
  | None => match s with c :: s' => Plain c :: scan r (c :: p) s' 0 | [] => [] end
  end.
Proof.
  destruct s as [|c s]; cbn [scan]; destruct (match_here r p _) as [y|]; try reflexivity.
  cbv zeta. destruct (length (c :: s) - length (suf y)) as [|n] eqn:En; [reflexivity|].
  f_equal. rewrite scan_skip.
  - cbn [firstn skipn rev]. now rewrite <- app_assoc.
  - cbn [length] in En. lia.
Qed.

(** The pieces of a scan, put back together, are the text scanned. *)
Lemma scan_text r s : forall p k,
  flat_map (render (fun w => w)) (scan r p s k) = skipn k s.
Proof.
  induction s as [|c s IH]; intros p k.
  - destruct k; cbn [scan]; [|reflexivity].
    destruct (match_here r p []); reflexivity.
  - destruct k as [|k]; [|cbn [scan skipn]; apply IH].
    cbn [scan]. destruct (match_here r p (c :: s)) as [y|].
    + cbv zeta. destruct (length (c :: s) - length (suf y)) as [|n].
      * cbn [flat_map render firstn app skipn]. now rewrite IH.
      * cbn [flat_map render firstn app skipn]. rewrite IH. now rewrite firstn_skipn.
    + cbn [flat_map render app skipn]. now rewrite IH.
Qed.

Section ReplaceTwice.

Variable R : ascii -> ascii -> Prop.
Hypothesis R_refl : forall c, R c c.
Hypothesis R_word : forall c c', R c c' -> is_word c = is_word c'.

Variable r : regex.
Hypothesis r_respects : respects R r.

Variable f : jsstring -> jsstring.
Hypothesis f_related : forall w, Forall2 R (f w) w.
Hypothesis f_idempotent : forall w, f (f w) = f w.

Local Abbreviation replace_from := (replace_from r f).

Lemma Forall2_R_refl (l : list ascii) : Forall2 R l l.
Proof. induction l; constructor; auto. Qed.

Lemma f_nil : f [] = [].
Proof. pose proof (f_related []) as H. now inversion H. Qed.

Lemma render_related (l : list piece) :
  Forall2 R (flat_map (render f) l) (flat_map (render (fun w => w)) l).
Proof.
  induction l as [|[c|w] l IH]; cbn [flat_map render].
  - constructor.
  - apply Forall2_app; [repeat constructor; apply R_refl | exact IH].
  - apply Forall2_app; [apply f_related | exact IH].
Qed.

Lemma replace_from_related p s : Forall2 R (replace_from p s) s.
Proof.
  unfold replace_from.
  rewrite <- (scan_text r s p 0) at 2. apply render_related.
Qed.

Lemma replace_from_unfold p s :
  replace_from p s =
  match match_here r p s with
  | Some y =>
      let n := length s - length (suf y) in
      f (firstn n s) ++
        match n with
        | 0 => match s with c :: s' => c :: replace_from (c :: p) s' | [] => [] end
        | S _ => replace_from (rev (firstn n s) ++ p) (skipn n s)
        end
  | None => match s with c :: s' => c :: replace_from (c :: p) s' | [] => [] end
  end.
Proof.
  unfold replace_from. rewrite scan_unfold.
  destruct (match_here r p s) as [y|]; [|now destruct s].
  cbv zeta. cbn [flat_map render]. f_equal.
  destruct (length s - length (suf y)); [now destruct s | reflexivity].
Qed.

Lemma replace_from_twice n : forall s p p',
  length s <= n -> Forall2 R p' p ->
  replace_from p' (replace_from p s) = replace_from p s.
Proof.
  induction n as [|n IH]; intros s p p' Hn Hp.
  - destruct s; [|cbn [length] in Hn; lia].
    assert (E : forall q, replace_from q [] = []).
    { intros q. rewrite replace_from_unfold.
      destruct (match_here r q []); [|reflexivity].
      cbn. now rewrite f_nil. }
    now rewrite !E.
  - remember (replace_from p s) as t eqn:Et.
    assert (Hrel : Forall2 R t s) by (subst t; apply replace_from_related).
    pose proof (@match_here_rel R R_word r _ _ _ _ r_respects Hp Hrel) as Hm.
    pose proof (Forall2_length Hrel) as Hlen.
    rewrite (replace_from_unfold p' t).
    rewrite replace_from_unfold in Et.
    destruct (match_here r p s) as [y|] eqn:Ey;
      destruct (match_here r p' t) as [y'|] eqn:Ey';
      simpl in Hm; try tauto.
    + destruct Hm as [_ Hsuf]. apply Forall2_length in Hsuf.
      cbv zeta in Et |- *. rewrite Hlen, Hsuf.
      destruct (length s - length (suf y)) as [|k] eqn:Ek.
      * cbn [firstn] in Et |- *. rewrite f_nil in Et |- *. cbn [app] in Et |- *.
        destruct s as [|c s]; subst t; [reflexivity|].
        f_equal. apply IH; [cbn [length] in Hn; lia | constructor; auto].
      * assert (Hk : length (firstn (S k) s) = S k).
        { rewrite length_firstn. lia. }
        assert (Hfk : length (f (firstn (S k) s)) = S k).
        { rewrite (Forall2_length (f_related _)). exact Hk. }
        assert (E1 : firstn (S k) t = f (firstn (S k) s)).
        { subst t. rewrite firstn_app, Hfk, Nat.sub_diag, firstn_O, app_nil_r.
          apply firstn_all2. lia. }
        assert (E2 : skipn (S k) t =
                     replace_from (rev (firstn (S k) s) ++ p) (skipn (S k) s)).
        { subst t. rewrite skipn_app, Hfk, Nat.sub_diag, skipn_O.
          rewrite skipn_all2 by lia. reflexivity. }
        rewrite E1, E2, f_idempotent. rewrite Et. f_equal.
        apply IH.
        -- rewrite length_skipn. lia.
        -- apply Forall2_app; [|exact Hp]. apply Forall2_rev, f_related.
    + destruct s as [|c s]; subst t; [reflexivity|].
      f_equal. apply IH; [cbn [length] in Hn; lia | constructor; auto].
Qed.

Lemma replace_all_related s : Forall2 R (replace_all r f s) s.
Proof. apply (replace_from_related [] s). Qed.

Lemma replace_all_twice s :
  replace_all r f (replace_all r f s) = replace_all r f s.
Proof.
  apply (replace_from_twice (n := length s)); [lia | constructor].
Qed.

End ReplaceTwice.

(** ** [cleanString] applied twice *)

Lemma case_facts c :
  lower_char (lower_char c) = lower_char c /\
  upper_char (upper_char c) = upper_char c /\
  lower_char (upper_char c) = lower_char c /\
  is_L (lower_char c) = is_L c /\
  is_word (lower_char c) = is_word c /\
  is_space (lower_char c) = is_space c /\
  is_char " " (lower_char c) = is_char " " c.
Proof.
  destruct c as [[] [] [] [] [] [] [] []]; vm_compute; repeat split.
Qed.

Lemma same_letter_refl c : same_letter c c.
Proof. reflexivity. Qed.

Lemma same_letter_word c c' : same_letter c c' -> is_word c = is_word c'.
Proof.
  unfold same_letter. intros H.
  destruct (case_facts c) as (_ & _ & _ & _ & <- & _).
  destruct (case_facts c') as (_ & _ & _ & _ & <- & _). now rewrite H.
Qed.

Lemma same_letter_L : respects_class same_letter is_L.
Proof.
  unfold same_letter. intros c c' H.
  destruct (case_facts c) as (_ & _ & _ & <- & _).
  destruct (case_facts c') as (_ & _ & _ & <- & _). now rewrite H.
Qed.

Lemma same_letter_space c c' :
  same_letter c c' -> is_space c = is_space c' /\ is_char " " c = is_char " " c'.
Proof.
  unfold same_letter. intros H.
  destruct (case_facts c) as (_ & _ & _ & _ & _ & <- & <-).
  destruct (case_facts c') as (_ & _ & _ & _ & _ & <- & <-). now rewrite H.
Qed.

Lemma re_word_respects : respects same_letter re_word.
Proof. cbn. repeat split. exact same_letter_L. Qed.

Lemma toUpperCase_related w : Forall2 same_letter (toUpperCase w) w.
Proof.
  induction w as [|c w IH]; constructor; [|exact IH].
  unfold same_letter. apply (case_facts c).
Qed.

Lemma toLowerCase_related w : Forall2 same_letter (toLowerCase w) w.
Proof.
  induction w as [|c w IH]; constructor; [|exact IH].
  unfold same_letter. apply (case_facts c).
Qed.

Lemma toUpperCase_twice w : toUpperCase (toUpperCase w) = toUpperCase w.
Proof.
  unfold toUpperCase. rewrite map_map. apply map_ext. intros c. apply (case_facts c).
Qed.

Lemma toLowerCase_twice w : toLowerCase (toLowerCase w) = toLowerCase w.
Proof.
  unfold toLowerCase. rewrite map_map. apply map_ext. intros c. apply (case_facts c).
Qed.

Lemma capitalize_related w : Forall2 same_letter (capitalize w) w.
Proof.
  unfold capitalize, slice_from. rewrite <- (firstn_skipn 1 w) at 3.
  apply Forall2_app; [apply toUpperCase_related | apply toLowerCase_related].
Qed.

Lemma capitalize_twice w : capitalize (capitalize w) = capitalize w.
Proof.
  destruct w as [|c w]; [reflexivity|].
  unfold capitalize, slice_from.
  cbn [firstn skipn toUpperCase toLowerCase map app].
  f_equal; [apply (case_facts c) | apply toLowerCase_twice].
Qed.

Lemma convert_case_related option t : Forall2 same_letter (convert_case option t) t.
Proof.
  unfold convert_case. cbv zeta.
  destruct (jsstring_eqb _ (str "upper")); [apply toUpperCase_related|].
  destruct (jsstring_eqb _ (str "lower")); [apply toLowerCase_related|].
  destruct (jsstring_eqb _ (str "title")).
  - apply replace_all_related; [exact same_letter_refl | exact capitalize_related].
  - apply Forall2_R_refl. exact same_letter_refl.
Qed.

Lemma convert_case_twice option t :
  convert_case option (convert_case option t) = convert_case option t.
Proof.
  unfold convert_case. cbv zeta.
  destruct (jsstring_eqb _ (str "upper")); [apply toUpperCase_twice|].
  destruct (jsstring_eqb _ (str "lower")); [apply toLowerCase_twice|].
  destruct (jsstring_eqb _ (str "title")); [|reflexivity].
  apply replace_all_twice with (R := same_letter).
  - exact same_letter_refl.
  - exact same_letter_word.
  - exact re_word_respects.
  - exact capitalize_related.
  - exact capitalize_twice.
Qed.

Lemma normal_related t' t : Forall2 same_letter t' t ->
  forall b, normal b t' = normal b t.
Proof.
  induction 1 as [|c' c t' t Hc _ IH]; intros b; [reflexivity|].
  cbn [normal]. destruct (same_letter_space Hc) as [-> ->]. now rewrite !IH.
Qed.

Lemma cleanString_keep_special c s option :
  cleanString (VString (c :: s)) (mkOptions option false) =
  convert_case option (trim (replace_all re_spaces (fun _ => str " ") (c :: s))).
Proof. reflexivity. Qed.

(** When special characters are kept ([removeSpecial] false),
    [cleanString] is idempotent for every case option, on every string of
    ASCII characters (and on non-strings). *)
Theorem cleanString_idempotent_keep_special (v : value) (option : jsstring) :
  ascii_value v ->
  let o := mkOptions option false in
  cleanString (VString (cleanString v o)) o = cleanString v o.
Proof.
  intros _ o. subst o.
  destruct v as [[|c s]|]; try reflexivity.
  rewrite cleanString_keep_special.
  destruct (normal_after_first_step (c :: s)) as [E | E]; cbv zeta in E.
  - rewrite E.
    pose proof (convert_case_related option []) as H. inversion H. reflexivity.
  - remember (trim _) as t eqn:Et. clear Et.
    pose proof (convert_case_related option t) as Hrel.
    pose proof (normal_related Hrel true) as Hn. rewrite E in Hn.
    destruct (convert_case option t) as [|d u] eqn:Eu; [discriminate Hn|].
    rewrite cleanString_keep_special, (first_step_fixed _ Hn), <- Eu.
    apply convert_case_twice.
Qed.

(** The theorem at work on a string with runs of white space, mixed case,
    punctuation and a digit, converted to title case. *)
Lemma cleanString_idempotent_keep_special_witness :
  ascii_value (VString (str "  hello   wORLD, it's 4pm ")) /\
  cleanString
    (VString (cleanString (VString (str "  hello   wORLD, it's 4pm "))
                          (mkOptions (str "title") false)))
    (mkOptions (str "title") false) =
  cleanString (VString (str "  hello   wORLD, it's 4pm ")) (mkOptions (str "title") false).
Proof.
  split; [reflexivity|].
  apply (cleanString_idempotent_keep_special
           (VString (str "  hello   wORLD, it's 4pm ")) (str "title")).
  reflexivity.
Defined.

(** C3 (the code departs from it).  With [removeSpecial] set, the special
    characters are removed after the white space was collapsed and trimmed,
    and nothing collapses it again: of ["a ! b"] the function leaves
    ["a  b"], with two spaces side by side, which a second call turns into
    ["a b"].  The result still holds an extra space and the function is not
    idempotent. *)
Theorem cleanString_removeSpecial_not_idempotent :
  cleanString (VString (str "a ! b")) (mkOptions (str "none") true) = str "a  b" /\
  cleanString (VString (str "a  b")) (mkOptions (str "none") true) = str "a b" /\
  cleanString (VString (cleanString (VString (str "a ! b")) (mkOptions (str "none") true)))
              (mkOptions (str "none") true)
  <> cleanString (VString (str "a ! b")) (mkOptions (str "none") true).
Proof.
  split; [vm_compute; reflexivity|]. split; [vm_compute; reflexivity|].
  vm_compute. discriminate.
Qed.

(** ** [tokenizeText] *)

(** C4 (the code departs from it).  The six scans are independent, so the
    letters and the punctuation inside the mention, the hashtag and the URL
    are reported as words and punctuation too. *)
Theorem tokenizeText_example :
  tokenizeText (VString (str "Hello, world! 123.45 and @user #coding https://example.com")) =
  mkTokens
    (map str ["Hello"; "world"; "and"; "user"; "coding"; "https"; "example"; "com"]%string)
    (map str ["123.45"]%string)
    (map str [","; "!"; "."; "@"; "#"; ":"; "/"; "/"; "."]%string)
    (map str ["#coding"]%string)
    (map str ["@user"]%string)
    (map str ["https://example.com"]%string).
Proof.
  vm_compute. reflexivity.
Qed.

(** ** [validateInternationalPhoneNumber]: requirements 1, 3 and 4 *)

(** The five [met] flags on a non-empty string, and [isValid]. *)
Lemma phone_result_flags c s :
  let phone := c :: s in
  let result := validateInternationalPhoneNumber (VString phone) in
  map met (requirements result) =
    [ test re_prefix phone;
      test re_length phone && national_length_ok phone;
      test re_charset phone;
      test re_country phone;
      requirement5_met (VString phone) ] /\
  isValid result =
    test re_prefix phone &&
    (test re_length phone && national_length_ok phone) &&
    test re_charset phone && test re_country phone &&
    requirement5_met (VString phone).
Proof.
  cbv zeta. unfold requirement5_met, national_length_ok.
  cbv beta iota zeta delta [validateInternationalPhoneNumber requirements isValid].
  rewrite requirements_after_tests.
  destruct (string_match re_country_code (c :: s)) as [groups|].
  - destruct (lookup _ countryRules) as [rules|];
      cbn [update set_met set_pattern met pattern message map met_at nth_error
           every_met forallb];
      rewrite ?andb_true_r, ?andb_assoc; split; reflexivity.
  - cbn [update set_met set_pattern met pattern message map met_at nth_error
         every_met forallb].
    rewrite ?andb_true_r, ?andb_false_r, ?andb_assoc. cbn [andb].
    rewrite ?andb_false_r. split; reflexivity.
Qed.

Lemma Matches_Lit w : forall p s p' s',
  Matches (Lit w) p s p' s' <-> s = w ++ s' /\ p' = rev w ++ p.
Proof.
  induction w as [|c w IH]; intros p s p' s'; cbn [Lit Matches].
  - cbn [app rev]. split; intros [-> ->]; auto.
  - split.
    + intros (p1 & s1 & (d & -> & -> & Hd) & H). apply IH in H. destruct H as [-> ->].
      apply Ascii.eqb_eq in Hd. subst d. cbn [rev app]. now rewrite <- app_assoc.
    + intros [-> ->]. exists (c :: p), (w ++ s'). split.
      * exists c. repeat split. apply Ascii.eqb_refl.
      * apply IH. cbn [rev]. now rewrite <- app_assoc.
Qed.

Lemma Matches_alternatives l : l <> [] -> forall p s p' s',
  Matches (alternatives l) p s p' s' <->
  exists w, In w l /\ s = w ++ s' /\ p' = rev w ++ p.
Proof.
  induction l as [|w l IH]; [congruence|]. intros _ p s p' s'.
  destruct l as [|w' l].
  - cbn [alternatives]. rewrite Matches_Lit. split.
    + intros H. exists w. split; [now left | exact H].
    + intros (w0 & [<- | []] & H). exact H.
  - change (alternatives (w :: w' :: l)) with (Alt (Lit w) (alternatives (w' :: l))).
    cbn [Matches]. rewrite Matches_Lit, IH by discriminate. split.
    + intros [H | (w0 & Hin & H)].
      * exists w. split; [now left | exact H].
      * exists w0. split; [now right | exact H].
    + intros (w0 & [<- | Hin] & H); [now left | right; eauto].
Qed.

Lemma Matches_plus_or_00 p s p' s' :
  Matches plus_or_00 p s p' s' <->
  exists q, country_prefix q /\ s = q ++ s' /\ p' = rev q ++ p.
Proof.
  unfold plus_or_00, country_prefix. cbn [Matches]. rewrite Matches_Lit. split.
  - intros [(c & -> & -> & Hc) | [-> ->]].
    + apply Ascii.eqb_eq in Hc. subst c. exists (str "+"). auto.
    + exists (str "00"). auto.
  - intros (q & [-> | ->] & -> & ->).
    + left. exists "+"%char. auto.
    + right. auto.
Qed.

Lemma re_prefix_iff s :
  test re_prefix s = true <-> exists p rest, s = p ++ rest /\ country_prefix p.
Proof.
  rewrite test_anchored_Matches by reflexivity.
  unfold re_prefix. cbn [Matches]. split.
  - intros (p' & s' & p1 & s1 & (_ & -> & ->) & H).
    apply Matches_plus_or_00 in H. destruct H as (q & Hq & -> & _). eauto.
  - intros (q & rest & -> & Hq).
    exists (rev q ++ []), rest, [], (q ++ rest). split; [auto|].
    apply Matches_plus_or_00. eauto.
Qed.

Lemma re_charset_iff s :
  test re_charset s = true <->
  exists p body, s = p ++ body /\ country_prefix p /\ forallb phone_char body = true.
Proof.
  rewrite test_anchored_Matches by reflexivity.
  unfold re_charset, Star. cbn [Matches]. split.
  - intros (p' & s' & p3 & s3 & (p2 & s2 & (p1 & s1 & (_ & -> & ->) & H) &
      (body & -> & -> & Hbody & _)) & (-> & -> & _)).
    apply Matches_plus_or_00 in H. destruct H as (q & Hq & -> & _).
    exists q, body. rewrite app_nil_r. auto.
  - intros (q & body & -> & Hq & Hbody).
    exists (rev body ++ rev q ++ []), [], (rev body ++ rev q ++ []), []. split; [|auto].
    exists (rev q ++ []), body. split.
    + exists [], (q ++ body). split; [auto|]. apply Matches_plus_or_00. eauto.
    + exists body. rewrite app_nil_r. cbn [within]. repeat split; auto. lia.
Qed.

Lemma re_country_iff s :
  test re_country s = true <->
  exists p code d rest,
    s = p ++ code ++ d :: rest /\ country_prefix p /\
    In code country_codes /\ is_digit d = true.
Proof.
  rewrite test_anchored_Matches by reflexivity.
  unfold re_country. cbn [Matches]. split.
  - intros (p' & s' & p3 & s3 & (p2 & s2 & (p1 & s1 & (_ & -> & ->) & H) & Hc) &
      (d & -> & -> & Hd)).
    apply Matches_plus_or_00 in H. destruct H as (q & Hq & -> & ->).
    apply Matches_alternatives in Hc; [|discriminate].
    destruct Hc as (code & Hin & -> & _).
    exists q, code, d, s'. auto.
  - intros (q & code & d & rest & -> & Hq & Hin & Hd).
    exists (d :: rev code ++ rev q ++ []), rest, (rev code ++ rev q ++ []), (d :: rest).
    split; [|exists d; auto].
    exists (rev q ++ []), (code ++ d :: rest). split.
    + exists [], (q ++ code ++ d :: rest). split; [auto|].
      apply Matches_plus_or_00. eauto.
    + apply Matches_alternatives; [discriminate|]. eauto.
Qed.

Lemma met_at_nth i : forall l, met_at i l = nth i (map met l) false.
Proof.
  unfold met_at. induction i as [|i IH]; intros [|q l]; cbn [nth_error map nth]; auto.
Qed.

(** For every input: requirement 1 is met exactly when the string starts
    with [+] or [00]; requirement 3 exactly when the rest of such a string
    is made of digits, white space, hyphens and parentheses; requirement 4
    exactly when the prefix is followed at once by one of the ten country
    codes and then a digit. *)
Theorem requirements_1_3_4_met_iff (v : value) :
  (requirement1_met v = true <->
   exists p rest, v = VString (p ++ rest) /\ country_prefix p) /\
  (requirement3_met v = true <->
   exists p body, v = VString (p ++ body) /\ country_prefix p /\
                  forallb phone_char body = true) /\
  (requirement4_met v = true <->
   exists p code d rest,
     v = VString (p ++ code ++ d :: rest) /\ country_prefix p /\
     In code country_codes /\ is_digit d = true).
Proof.
  assert (Hnil : forall p l, country_prefix p -> VString [] <> VString (p ++ l)).
  { intros p l [-> | ->]; discriminate. }
  destruct v as [[|c s]|].
  - repeat split; try discriminate.
    + intros (p & rest & E & Hp). now apply Hnil in E.
    + intros (p & body & E & Hp & _). now apply Hnil in E.
    + intros (p & code & d & rest & E & Hp & _). now apply Hnil in E.
  - destruct (phone_result_flags c s) as [Hflags _]. cbv zeta in Hflags.
    unfold requirement1_met, requirement3_met, requirement4_met.
    rewrite !met_at_nth, Hflags. cbn [nth].
    rewrite re_prefix_iff, re_charset_iff, re_country_iff.
    repeat split.
    + intros (p & rest & -> & Hp). eauto.
    + intros (p & rest & [= ->] & Hp). eauto.
    + intros (p & body & -> & Hp). eauto.
    + intros (p & body & [= ->] & Hp). eauto.
    + intros (p & code & d & rest & -> & Hp). eauto 6.
    + intros (p & code & d & rest & [= ->] & Hp). eauto 6.
  - repeat split; try discriminate.
    + intros (p & rest & [=] & _).
    + intros (p & body & [=] & _).
    + intros (p & code & d & rest & [=] & _).
Qed.

(** ** [validateInternationalPhoneNumber]: inputs without a prefix, requirement 5 *)

Lemma strip_prefix_app p rest :
  country_prefix p -> strip_prefix (p ++ rest) = Some rest.
Proof. intros [-> | ->]; reflexivity. Qed.

Lemma country_prefix_unique p p' a b :
  country_prefix p -> country_prefix p' -> p ++ a = p' ++ b -> p = p' /\ a = b.
Proof.
  intros [-> | ->] [-> | ->] E; cbn [str list_ascii_of_string app] in E;
    try discriminate E; injection E as ->; auto.
Qed.

(** Requirement 5 fails in two cases only: on the empty string (and on a
    value that is no string), and when the digits that follow the prefix,
    three at most, spell a country code of the table and the national
    number does not start with one of its listed mobile prefixes. *)
Theorem requirement5_fails_iff (v : value) :
  requirement5_met v = false <->
  (v = VOther \/ v = VString []) \/
  exists s cc rules,
    v = VString s /\ country_code s = Some cc /\
    lookup cc countryRules = Some rules /\
    includes (mobilePrefixes rules)
      (firstn (length (hd [] (mobilePrefixes rules))) (national_number s cc)) = false.
Proof.
  destruct v as [[|c s]|].
  - split; [auto | reflexivity].
  - rewrite requirement5_met_eq. split.
    + intros H. right. exists (c :: s).
      destruct (country_code (c :: s)) as [cc|]; [|discriminate H].
      destruct (lookup cc countryRules) as [rules|] eqn:E; [|discriminate H].
      exists cc, rules. auto.
    + intros [[H | H] | (s0 & cc & rules & [= <-] & -> & -> & H)];
        [discriminate H | discriminate H | exact H].
  - split; [auto | reflexivity].
Qed.

(** A non-empty string that starts with neither [+] nor [00] fails
    requirements 1 to 4 and meets requirement 5, whatever else it holds. *)
Theorem no_prefix_result c s :
  strip_prefix (c :: s) = None ->
  let result := validateInternationalPhoneNumber (VString (c :: s)) in
  map met (requirements result) = [false; false; false; false; true] /\
  isValid result = false.
Proof.
  intros Hnone. cbv zeta.
  assert (Hno : forall p rest, c :: s = p ++ rest -> ~ country_prefix p).
  { intros p rest E Hp. rewrite E, (strip_prefix_app _ Hp) in Hnone. discriminate. }
  assert (H1 : test re_prefix (c :: s) = false).
  { apply not_true_is_false. rewrite re_prefix_iff.
    intros (p & rest & E & Hp). exact (Hno _ _ E Hp). }
  assert (H2 : test re_length (c :: s) = false).
  { apply not_true_is_false. rewrite re_length_shape.
    intros (p & body & d & E & Hp & _). exact (Hno _ _ E Hp). }
  assert (H3 : test re_charset (c :: s) = false).
  { apply not_true_is_false. rewrite re_charset_iff.
    intros (p & body & E & Hp & _). exact (Hno _ _ E Hp). }
  assert (H4 : test re_country (c :: s) = false).
  { apply not_true_is_false. rewrite re_country_iff.
    intros (p & code & d & rest & E & Hp & _). exact (Hno _ _ E Hp). }
  assert (H5 : requirement5_met (VString (c :: s)) = true).
  { rewrite requirement5_met_eq. unfold country_code. now rewrite Hnone. }
  destruct (phone_result_flags c s) as [Hflags Hvalid]. cbv zeta in Hflags, Hvalid.
  rewrite Hflags, Hvalid, H1, H2, H3, H4, H5. split; reflexivity.
Qed.

Lemma no_prefix_result_witness :
  map met (requirements (validateInternationalPhoneNumber (VString (str "123456")))) =
    [false; false; false; false; true] /\
  isValid (validateInternationalPhoneNumber (VString (str "123456"))) = false.
Proof. apply (@no_prefix_result "1"%char (str "23456")). reflexivity. Defined.

(** ** [validateInternationalPhoneNumber]: [00] before a three-digit code *)

(** Written with the prefix [00], a number of the country codes 254, 255
    and 234 is never valid: the two zeros stay among the digits the
    national number is cut from, so the mobile prefix the function looks
    up is made of the last two digits of the country code. *)
Theorem double_zero_three_digit_code_rejected code rest :
  three_digit_code code ->
  let result := validateInternationalPhoneNumber (VString (str "00" ++ code ++ rest)) in
  met_at 4 (requirements result) = false /\ isValid result = false.
Proof.
  intros Hcode. cbv zeta.
  assert (H5 : requirement5_met (VString (str "00" ++ code ++ rest)) = false).
  { change (str "00" ++ code ++ rest) with ("0"%char :: "0"%char :: code ++ rest).
    rewrite requirement5_met_eq.
    change ("0"%char :: "0"%char :: code ++ rest) with (str "00" ++ code ++ rest).
    unfold country_code, national_number.
    rewrite strip_prefix_app by (right; reflexivity).
    rewrite filter_app.
    destruct Hcode as [-> | [-> | ->]];
      cbn [str list_ascii_of_string app run firstn filter];
      change (is_digit "0") with true; change (is_digit "2") with true;
      change (is_digit "3") with true; change (is_digit "4") with true;
      change (is_digit "5") with true; cbv iota;
      cbn [Nat.min firstn length skipn app]; reflexivity. }
  split; [exact H5|].
  change (str "00" ++ code ++ rest) with ("0"%char :: "0"%char :: code ++ rest) in *.
  destruct (phone_result_flags "0"%char ("0"%char :: code ++ rest)) as [_ Hvalid].
  cbv zeta in Hvalid. rewrite Hvalid, H5. apply andb_false_r.
Qed.

Lemma double_zero_three_digit_code_rejected_witness :
  three_digit_code (str "254") /\
  isValid (validateInternationalPhoneNumber (VString (str "00254712345678"))) = false.
Proof.
  split; [left; reflexivity|].
  apply (@double_zero_three_digit_code_rejected (str "254") (str "712345678")).
  left; reflexivity.
Defined.

(** ** A valid phone number can be formatted *)

Lemma run_app cs w : forall t,
  forallb cs w = true -> run cs (w ++ t) = length w + run cs t.
Proof.
  induction w as [|c w IH]; intros t H; [reflexivity|].
  cbn [forallb] in H. apply andb_prop in H. destruct H as [Hc Hw].
  cbn [app run length]. now rewrite Hc, IH.
Qed.

Lemma country_codes_digits code :
  In code country_codes -> forallb is_digit code = true /\ 1 <= length code.
Proof.
  unfold country_codes. cbn [map In].
  intros H. repeat (destruct H as [<- | H]; [split; [reflexivity | cbn; lia]|]).
  contradiction.
Qed.

Lemma length_matches_min cc rules n :
  lookup cc countryRules = Some rules ->
  length_matches (rule_length rules) n = true -> 6 <= n.
Proof.
  unfold countryRules. cbn [lookup]. intros H.
  repeat match type of H with
         | (if ?b then _ else _) = _ =>
             destruct b;
             [ injection H as <-; cbn [rule_length length_matches existsb];
               intros Hn; repeat (apply orb_prop in Hn; destruct Hn as [Hn | Hn]);
               try discriminate Hn; apply Nat.eqb_eq in Hn; lia |]
         end.
  discriminate H.
Qed.

Lemma phone_char_not_separator c :
  phone_char c = true -> negb (is_separator c) = is_digit c.
Proof.
  unfold phone_char, cls_or. fold (is_separator c).
  destruct (is_digit c) eqn:Hd.
  - now rewrite (digit_not_separator _ Hd).
  - cbn [orb]. now intros ->.
Qed.

Lemma filter_phone_chars rest :
  forallb phone_char rest = true ->
  filter (fun c => negb (is_separator c)) rest = filter is_digit rest.
Proof.
  induction rest as [|c rest IH]; [reflexivity|]. cbn [forallb filter].
  intros H. apply andb_prop in H. destruct H as [Hc Hrest].
  now rewrite (phone_char_not_separator _ Hc), IH.
Qed.

(** What [formatPhoneNumber] returns on a prefix followed by 6 to 15
    digits among separators. *)
Lemma formatPhoneNumber_prefixed p rest :
  country_prefix p -> forallb phone_char rest = true ->
  6 <= length (filter is_digit rest) <= 15 ->
  formatPhoneNumber (VString (p ++ rest)) = str "+" ++ filter is_digit rest.
Proof.
  intros Hp Hrest [Hlo Hhi]. rewrite formatPhoneNumber_refines.
  unfold formatPhoneNumber_steps, format_steps.
  replace (length (p ++ rest) =? 0) with false by (now destruct Hp as [-> | ->]).
  cbv zeta.
  replace (if startsWith (str "00") (p ++ rest) then str "+" ++ skipn 2 (p ++ rest)
           else p ++ rest) with (str "+" ++ rest)
    by (now destruct Hp as [-> | ->]).
  cbn [str list_ascii_of_string app filter].
  change (is_separator "+") with false. cbn [negb].
  rewrite (filter_phone_chars _ Hrest).
  unfold startsWith. cbn [length firstn plus_digits].
  apply Nat.leb_le in Hlo, Hhi.
  rewrite Hlo, Hhi, forallb_filter. reflexivity.
Qed.

(** Whatever [validateInternationalPhoneNumber] declares valid,
    [formatPhoneNumber] can format: a valid input is a prefix ([+] or
    [00]) followed by digits, white space, hyphens and parentheses with 6
    to 15 digits among them, and [formatPhoneNumber] returns [+] followed
    by those digits, never the empty string. *)
Theorem valid_phone_is_formatted (v : value) :
  isValid (validateInternationalPhoneNumber v) = true ->
  exists p rest,
    v = VString (p ++ rest) /\ country_prefix p /\
    forallb phone_char rest = true /\
    6 <= length (filter is_digit rest) <= 15 /\
    formatPhoneNumber v = str "+" ++ filter is_digit rest.
Proof.
  destruct v as [[|c s]|]; try discriminate.
  destruct (phone_result_flags c s) as [_ Hvalid]. cbv zeta in Hvalid.
  rewrite Hvalid. clear Hvalid. intros H.
  apply andb_prop in H. destruct H as [H H5].
  apply andb_prop in H. destruct H as [H H4].
  apply andb_prop in H. destruct H as [H H3].
  apply andb_prop in H. destruct H as [H1 H2].
  apply andb_prop in H2. destruct H2 as [H2 Hlen].
  apply re_length_shape in H2.
  destruct H2 as (p & body & d & E & Hp & [Hlo Hhi] & Hbody & Hd).
  apply re_country_iff in H4.
  destruct H4 as (p' & code & d' & rest' & E' & Hp' & Hcode & Hd').
  rewrite E in E'.
  destruct (@country_prefix_unique _ _ _ _ Hp Hp' E') as [<- Erest].
  set (rest := body ++ [d]) in *.
  assert (Hrest : forallb phone_char rest = true).
  { subst rest. rewrite forallb_app, Hbody. cbn [forallb].
    now rewrite (digit_phone_char _ Hd). }
  assert (Hrestlen : length rest <= 15).
  { subst rest. rewrite length_app. cbn [length]. lia. }
  pose proof (filter_length_le is_digit rest) as Hfl.
  (* the country code the function reads has two digits at least *)
  destruct (@country_codes_digits code Hcode) as [Hcd Hcl].
  assert (Hrun : 2 <= run is_digit rest).
  { rewrite Erest, (@run_app is_digit code (d' :: rest') Hcd). cbn [run]. rewrite Hd'. lia. }
  rewrite national_length_ok_rule in Hlen.
  unfold national_length_rule, country_code, national_number in Hlen.
  rewrite E, (@strip_prefix_app p rest Hp) in Hlen.
  pose proof (run_le is_digit rest) as Hrl.
  destruct (firstn (Nat.min 3 (run is_digit rest)) rest) as [|c0 cc0] eqn:Ecc;
    [discriminate Hlen|].
  assert (Hcclen : length (c0 :: cc0) <= 3).
  { rewrite <- Ecc, length_firstn. lia. }
  cbv zeta in Hlen. rewrite length_skipn, filter_app, length_app in Hlen.
  assert (Hp2 : length (filter is_digit p) <= 2).
  { clear - Hp. destruct Hp as [-> | ->]; vm_compute; lia. }
  assert (Hn : 6 <= length (filter is_digit p) + length (filter is_digit rest)
                    - length (c0 :: cc0)).
  { destruct (lookup (c0 :: cc0) countryRules) as [rules|] eqn:Erules.
    - exact (@length_matches_min _ _ _ Erules Hlen).
    - apply andb_prop in Hlen. destruct Hlen as [Hlen _].
      now apply Nat.leb_le in Hlen. }
  assert (Hcc2 : 2 <= length (c0 :: cc0)).
  { rewrite <- Ecc, length_firstn. lia. }
  assert (Hbounds : 6 <= length (filter is_digit rest) <= 15) by lia.
  exists p, rest. rewrite E.
  repeat split; try assumption; try lia.
  apply formatPhoneNumber_prefixed; assumption.
Qed.

Lemma valid_phone_is_formatted_witness :
  exists p rest,
    VString (str "+254712 345 678") = VString (p ++ rest) /\ country_prefix p /\
    forallb phone_char rest = true /\
    6 <= length (filter is_digit rest) <= 15 /\
    formatPhoneNumber (VString (str "+254712 345 678")) = str "+" ++ filter is_digit rest.
Proof.
  apply (@valid_phone_is_formatted (VString (str "+254712 345 678"))).
  vm_compute. reflexivity.
Defined.

(** ** The table of country rules and the valid numbers *)

Lemma lookup_keys cc rules :
  lookup cc countryRules = Some rules ->
  In cc (map str ["1"; "254"; "255"; "44"; "91"; "61"; "234"; "55"; "49"; "81"]%string).
Proof.
  unfold countryRules. cbn [lookup map]. intros H.
  repeat match type of H with
         | (if jsstring_eqb ?k cc then _ else _) = _ =>
             destruct (jsstring_eqb k cc) eqn:E;
             [apply jsstring_eqb_eq in E; rewrite <- E; cbn [In]; tauto | clear E]
         end.
  discriminate H.
Qed.

(** Requirement 4 wants a digit right after the country code, so the
    function reads two digits at least; a code of the table it reads is
    then one of the three-digit ones. *)
Lemma looked_up_code_has_three_digits s cc rules :
  test re_country s = true -> country_code s = Some cc ->
  lookup cc countryRules = Some rules -> three_digit_code cc.
Proof.
  intros H4 Hcc Hrules. apply re_country_iff in H4.
  destruct H4 as (p & code & d & rest' & -> & Hp & Hcode & Hd).
  unfold country_code in Hcc. rewrite (@strip_prefix_app p _ Hp) in Hcc.
  destruct (@country_codes_digits code Hcode) as [Hcd Hcl].
  assert (Hrun : run is_digit (code ++ d :: rest') = length code + S (run is_digit rest')).
  { rewrite (@run_app is_digit code (d :: rest') Hcd). cbn [run]. now rewrite Hd. }
  rewrite Hrun in Hcc.
  destruct (firstn _ _) as [|c0 cc0] eqn:E in Hcc; [discriminate Hcc|].
  injection Hcc as <-.
  apply lookup_keys in Hrules. rewrite <- E in Hrules |- *. clear E.
  unfold country_codes in Hcode. cbn [map In] in Hcode.
  unfold three_digit_code.
  repeat (destruct Hcode as [<- | Hcode]); try contradiction;
    cbn [str list_ascii_of_string length Nat.add Nat.min app firstn] in Hrules |- *;
    try tauto;
    destruct (run is_digit rest'); cbn [Nat.min firstn] in Hrules |- *;
    repeat (destruct Hrules as [Hrules | Hrules]; try discriminate Hrules);
    try contradiction.
Qed.

(** The rules of the table never decide that a number is valid, except
    those of the three-digit codes 254, 255 and 234: when a number is
    valid and the country code the function read is in the table, the code
    is one of these three.  (Requirement 4 wants a digit right after the
    code, so a code of one or two digits is read together with the digits
    that follow it.) *)
Theorem valid_numbers_use_three_digit_rules (s cc : jsstring) (rules : CountryRule) :
  isValid (validateInternationalPhoneNumber (VString s)) = true ->
  country_code s = Some cc ->
  lookup cc countryRules = Some rules ->
  three_digit_code cc.
Proof.
  destruct s as [|c s]; [discriminate|].
  destruct (phone_result_flags c s) as [_ Hvalid]. cbv zeta in Hvalid.
  rewrite Hvalid. clear Hvalid. intros H.
  apply andb_prop in H. destruct H as [H _].
  apply andb_prop in H. destruct H as [_ H4].
  now apply looked_up_code_has_three_digits.
Qed.

Lemma valid_numbers_use_three_digit_rules_witness :
  isValid (validateInternationalPhoneNumber (VString (str "+254712345678"))) = true /\
  three_digit_code (str "254").
Proof.
  split; [reflexivity|].
  apply (@valid_numbers_use_three_digit_rules (str "+254712345678") (str "254")
           (mkRule (Exactly 9)
              (map str ["70"; "71"; "72"; "73"; "74"; "75"; "76"; "77"; "78"; "79"]%string)));
    reflexivity.
Defined.

(** ** [formatPhoneNumber]: the digits are kept *)

Lemma filter_filter (f g : ascii -> bool) l :
  filter f (filter g l) = filter (fun c => f c && g c) l.
Proof.
  induction l as [|c l IH]; [reflexivity|]. cbn [filter].
  destruct (g c); cbn [filter]; rewrite ?andb_true_r, ?andb_false_r, IH; reflexivity.
Qed.

Lemma filter_digits_not_separator (l : list ascii) :
  filter is_digit (filter (fun c => negb (is_separator c)) l) = filter is_digit l.
Proof.
  rewrite filter_filter. apply filter_ext. intros c.
  destruct (is_digit c) eqn:Hd; [|reflexivity].
  now rewrite (digit_not_separator _ Hd).
Qed.

(** When [formatPhoneNumber] returns a number, it is [+] followed by the
    digits of the input in their order, all of them, except that the two
    zeros of a leading [00] are left out: formatting never adds, drops or
    moves a digit. *)
Theorem formatPhoneNumber_keeps_digits (s : jsstring) :
  formatPhoneNumber (VString s) <> [] ->
  formatPhoneNumber (VString s) =
  str "+" ++ filter is_digit (if startsWith (str "00") s then skipn 2 s else s).
Proof.
  rewrite formatPhoneNumber_refines. unfold formatPhoneNumber_steps, format_steps.
  destruct (length s =? 0); [congruence|]. cbv zeta.
  destruct (negb (startsWith (str "+") _)); [congruence|].
  destruct (plus_digits _) eqn:Hplus; cbn [negb]; [|congruence]. intros _.
  assert (Ha : filter is_digit
                 (if startsWith (str "00") s then str "+" ++ skipn 2 s else s) =
               filter is_digit (if startsWith (str "00") s then skipn 2 s else s)).
  { destruct (startsWith (str "00") s); reflexivity. }
  rewrite <- Ha, <- filter_digits_not_separator.
  destruct (filter (fun c => negb (is_separator c)) _) as [|c ds]; [discriminate Hplus|].
  cbn [plus_digits] in Hplus. bool_hyps. subst c.
  cbn [filter]. change (is_digit "+") with false. cbv iota.
  now rewrite filter_all.
Qed.

Lemma formatPhoneNumber_keeps_digits_witness :
  formatPhoneNumber (VString (str "00 1 (202) 555-0123")) <> [] /\
  formatPhoneNumber (VString (str "00 1 (202) 555-0123")) = str "+12025550123".
Proof.
  split; [vm_compute; discriminate|].
  apply (@formatPhoneNumber_keeps_digits (str "00 1 (202) 555-0123")).
  vm_compute. discriminate.
Defined.

(** ** [checkPasswordStrength]: what the six patterns test *)

(** A pattern that is a single character class finds a match exactly when
    the string holds a character of the class. *)
Lemma test_Chr cs s : test (Chr cs) s = existsb cs s.
Proof.
  unfold test, exec. generalize (@nil ascii) as p.
  induction s as [|c s IH]; intros p; [reflexivity|].
  cbn [exec_from existsb]. unfold match_here. cbn [m suf].
  destruct (cs c); [reflexivity | apply IH].
Qed.

Lemma test_AtLeast cs n s : test (AtLeast cs n) s = has_run cs n s.
Proof.
  unfold test, exec, AtLeast. generalize (@nil ascii) as p.
  induction s as [|c s IH]; intros p.
  - cbn [exec_from has_run]. unfold match_here. cbn [m pre suf caps].
    rewrite (@rep_greedy cs [] n None p (fun p s => mkState p s []) eq_refl).
    cbv zeta. cbn [cap_hi]. rewrite orb_false_r.
    now destruct (n <=? run cs []).
  - cbn [exec_from has_run]. unfold match_here. cbn [m pre suf caps].
    rewrite (@rep_greedy cs (c :: s) n None p (fun p s => mkState p s []) eq_refl).
    cbv zeta. cbn [cap_hi].
    destruct (n <=? run cs (c :: s)); [reflexivity | apply IH].
Qed.

Lemma has_run_length cs n s : has_run cs n s = true -> n <= length s.
Proof.
  induction s as [|c s IH]; cbn [has_run length]; intros H;
    apply orb_prop in H; destruct H as [H | H].
  - apply Nat.leb_le in H. cbn [run] in H. lia.
  - discriminate H.
  - apply Nat.leb_le in H. pose proof (run_le cs (c :: s)) as Hr.
    cbn [length] in Hr. lia.
  - apply IH in H. lia.
Qed.

Lemma run_all cs s : forallb cs s = true -> run cs s = length s.
Proof.
  induction s as [|c s IH]; [reflexivity|]. cbn [forallb run length].
  intros H. apply andb_prop in H. destruct H as [-> H]. now rewrite IH.
Qed.

Lemma has_run_all cs n s :
  forallb cs s = true -> has_run cs n s = (n <=? length s).
Proof.
  intros H. apply eq_true_iff_eq. split.
  - intros Hr. apply Nat.leb_le. exact (has_run_length _ _ _ Hr).
  - intros Hn. destruct s as [|c s]; cbn [has_run];
      rewrite (run_all _ _ H), Hn; reflexivity.
Qed.

Lemma test_clean_ends s :
  test (Bol ;; NLook (Chr is_space) ;; Star dot ;; NLookBehind is_space ;; Eol)%re s =
  clean_ends s.
Proof.
  apply eq_true_iff_eq. rewrite test_anchored_Matches by reflexivity.
  unfold clean_ends, Star. cbn [Matches]. split.
  - intros (p' & s' & p4 & s4 & (p3 & s3 & (p2 & s2 & (p1 & s1 & (_ & E1 & E1') &
      (Hn & E2 & E2')) & (w & Ew & E3 & Hw & _)) & (Hb & E4 & E4')) & (E5 & _)).
    subst. rewrite !app_nil_r in *. rewrite Hw, Hb.
    destruct w as [|c w]; [reflexivity|]. cbn [hd_is].
    destruct (is_space c) eqn:Hc; [|reflexivity].
    exfalso. apply Hn. exists [c], w. exists c. auto.
  - intros H. apply andb_prop in H. destruct H as [H Hlast].
    apply andb_prop in H. destruct H as [Hdot Hfirst].
    apply negb_true_iff in Hlast, Hfirst.
    exists (rev s), [], (rev s), []. split; [|auto].
    exists (rev s), []. split; [|auto].
    exists [], s. split.
    + exists [], s. repeat split.
      intros (p1 & s1 & c & -> & _ & Hc). cbn [hd_is] in Hfirst. congruence.
    + exists s. rewrite !app_nil_r. cbn [within]. repeat split; auto. lia.
Qed.

(** The six [met] flags of [checkPasswordStrength] on a non-empty string,
    and [isValid]. *)
Lemma password_result_flags c s :
  let password := c :: s in
  let result := checkPasswordStrength (VString password) in
  map met (requirements result) = map (fun r => test r password) password_patterns /\
  isValid result = forallb (fun r => test r password) password_patterns.
Proof. split; reflexivity. Qed.

(** The [met] flags of [checkPasswordStrength] on a string whose
    characters are all at most U+00FF, in the order of the requirements:
    the password holds 8 characters in a row without a line break (LF or
    CR, the line breaks of that range); an uppercase letter; a lowercase
    letter; a number character; a character that is no letter, number or
    white space; and it holds no line break and neither starts nor ends
    with white space.  On the empty string and on a value that is no string
    all six are false. *)
Theorem checkPasswordStrength_flags (v : value) :
  latin1_value v ->
  map met (requirements (checkPasswordStrength v)) =
  match v with
  | VString (c :: s) =>
      let password := c :: s in
      [ has_run dot 8 password;
        existsb is_Lu password;
        existsb is_Ll password;
        existsb is_Number password;
        existsb is_special password;
        clean_ends password ]
  | _ => [false; false; false; false; false; false]
  end.
Proof.
  intros _. destruct v as [[|c s]|]; try reflexivity.
  destruct (password_result_flags c s) as [-> _].
  unfold password_patterns. cbn [map].
  now rewrite test_AtLeast, !test_Chr, test_clean_ends.
Qed.

Lemma checkPasswordStrength_flags_witness :
  latin1_value (VString (str "Pass123!@#")) /\
  map met (requirements (checkPasswordStrength (VString (str "Pass123!@#")))) =
    [true; true; true; true; true; true].
Proof.
  split; [reflexivity|].
  apply (@checkPasswordStrength_flags (VString (str "Pass123!@#"))). reflexivity.
Defined.

(** Among the inputs whose characters are all at most U+00FF,
    [checkPasswordStrength] declares a password valid exactly when it is a
    string of 8 characters or more, none of them a line break (LF or CR,
    the line breaks of that range), with an uppercase letter, a lowercase
    letter, a number character and a character that is no letter, number or
    white space, whose first and last characters are no white space. *)
Theorem checkPasswordStrength_valid_iff (v : value) :
  latin1_value v ->
  isValid (checkPasswordStrength v) = true <->
  exists s,
    v = VString s /\ 8 <= length s /\
    forallb dot s = true /\
    (exists c, In c s /\ is_Lu c = true) /\
    (exists c, In c s /\ is_Ll c = true) /\
    (exists c, In c s /\ is_Number c = true) /\
    (exists c, In c s /\ is_special c = true) /\
    hd_is is_space s = false /\ hd_is is_space (rev s) = false.
Proof.
  intros _. destruct v as [[|c s]|].
  - split; [discriminate|]. intros (s & [= <-] & H & _). cbn [length] in H. lia.
  - destruct (password_result_flags c s) as [_ ->].
    unfold password_patterns. cbn [forallb].
    rewrite test_AtLeast, !test_Chr, test_clean_ends, andb_true_r.
    unfold clean_ends. split.
    + intros H. exists (c :: s). split; [reflexivity|].
      apply andb_prop in H. destruct H as [H1 H].
      apply andb_prop in H. destruct H as [H2 H].
      apply andb_prop in H. destruct H as [H3 H].
      apply andb_prop in H. destruct H as [H4 H].
      apply andb_prop in H. destruct H as [H5 H].
      apply andb_prop in H. destruct H as [H Hlast].
      apply andb_prop in H. destruct H as [Hdot Hfirst].
      apply negb_true_iff in Hlast, Hfirst.
      rewrite (@has_run_all dot 8 (c :: s) Hdot) in H1. apply Nat.leb_le in H1.
      apply existsb_exists in H2, H3, H4, H5.
      repeat split; assumption.
    + intros (s0 & [= <-] & Hlen & Hdot & H2 & H3 & H4 & H5 & -> & ->).
      apply existsb_exists in H2, H3, H4, H5.
      rewrite (@has_run_all dot 8 (c :: s) Hdot), Hdot, H2, H3, H4, H5.
      apply Nat.leb_le in Hlen. now rewrite Hlen.
  - split; [discriminate|]. intros (s & [=] & _).
Qed.

Lemma checkPasswordStrength_valid_iff_witness :
  latin1_value (VString (str "Pass123!@#")) /\
  isValid (checkPasswordStrength (VString (str "Pass123!@#"))) = true.
Proof.
  split; [reflexivity|].
  apply (@checkPasswordStrength_valid_iff (VString (str "Pass123!@#"))); [reflexivity|].
  exists (str "Pass123!@#"). split; [reflexivity|]. split; [cbn; lia|].
  split; [reflexivity|].
  split; [exists "P"%char; split; [cbn; tauto | reflexivity]|].
  split; [exists "a"%char; split; [cbn; tauto | reflexivity]|].
  split; [exists "1"%char; split; [cbn; tauto | reflexivity]|].
  split; [exists "!"%char; split; [cbn; tauto | reflexivity]|].
  split; reflexivity.
Defined.

(** ** The strength meter of the demo page *)

Lemma filter_met_all (l : list Requirement) :
  length (filter met l) = length l <-> forallb met l = true.
Proof.
  induction l as [|q l IH]; [cbn; tauto|]. cbn [filter forallb length].
  pose proof (filter_length_le met l) as Hle.
  destruct (met q); cbn [length andb].
  - rewrite <- IH. split; lia.
  - split; [lia | discriminate].
Qed.

(** The meter of the demo page counts the requirements of
    [checkPasswordStrength] that are met: there are always six
    requirements, the count is six exactly when the password is valid, a
    valid password gets the green bar, and an empty input the red one.
    The green bar alone does not mean the password is valid: it is shown
    from five requirements on. *)
Theorem strength_meter (v : value) :
  let result := checkPasswordStrength v in
  length (requirements result) = 6 /\
  strength result <= 6 /\
  (strength result = 6 <-> isValid result = true) /\
  (isValid result = true -> strength_colour (strength result) = str "bg-green-500") /\
  (v = VString [] -> strength_colour (strength result) = str "bg-red-500") /\
  (forall n, strength_colour n = str "bg-green-500" <-> 5 <= n).
Proof.
  cbv zeta.
  assert (Hlen : length (requirements (checkPasswordStrength v)) = 6).
  { destruct v as [[|c s]|]; reflexivity. }
  assert (Hle : strength (checkPasswordStrength v) <= 6).
  { unfold strength. rewrite <- Hlen. apply filter_length_le. }
  assert (Hfull : strength (checkPasswordStrength v) = 6 <->
                  isValid (checkPasswordStrength v) = true).
  { unfold strength. rewrite <- Hlen, filter_met_all.
    destruct v as [[|c s]|]; try (split; discriminate). reflexivity. }
  repeat split; try assumption; try apply Hfull.
  - intros H. apply Hfull in H. now rewrite H.
  - intros ->. reflexivity.
  - unfold strength_colour. destruct (Nat.leb_spec n 2); [discriminate|].
    destruct (Nat.leb_spec n 4); [discriminate | intros _; lia].
  - intros Hn. unfold strength_colour.
    destruct (Nat.leb_spec n 2); [lia|]. destruct (Nat.leb_spec n 4); [lia | reflexivity].
Qed.

(** ** [tokenizeText] and [extractSocialMediaEntities]: the tokens *)

Lemma runs_from_run cs s : forall acc,
  runs_from cs acc s =
  match rev acc ++ firstn (run cs s) s with [] => [] | w => [w] end ++
  runs_from cs [] (skipn (run cs s) s).
Proof.
  induction s as [|c s IH]; intros acc.
  - cbn [runs_from run firstn skipn]. rewrite !app_nil_r.
    destruct acc as [|a acc]; [reflexivity|].
    destruct (rev (a :: acc)) eqn:E; [|reflexivity].
    apply (f_equal (@length ascii)) in E. rewrite length_rev in E. discriminate E.
  - cbn [runs_from run]. destruct (cs c) eqn:Hc.
    + rewrite IH. cbn [firstn skipn rev]. now rewrite <- app_assoc.
    + cbn [firstn skipn]. rewrite app_nil_r. cbn [runs_from]. rewrite Hc.
      cbn [app]. destruct acc as [|a acc]; [reflexivity|].
      destruct (rev (a :: acc)) eqn:E; [|reflexivity].
      apply (f_equal (@length ascii)) in E. rewrite length_rev in E. discriminate E.
Qed.

Lemma runs_from_concat cs s : forall acc,
  concat (runs_from cs acc s) = rev acc ++ filter cs s.
Proof.
  induction s as [|c s IH]; intros acc; cbn [runs_from filter].
  - destruct acc; [reflexivity|]. cbn [concat]. now rewrite !app_nil_r.
  - destruct (cs c).
    + rewrite IH. cbn [rev]. now rewrite <- app_assoc.
    + rewrite concat_app, IH. destruct acc; [reflexivity|].
      cbn [concat rev app]. now rewrite !app_nil_r.
Qed.

Lemma runs_from_Forall cs s : forall acc,
  forallb cs acc = true ->
  Forall (fun w => w <> [] /\ forallb cs w = true) (runs_from cs acc s).
Proof.
  assert (Hacc : forall acc, forallb cs acc = true ->
            Forall (fun w => w <> [] /\ forallb cs w = true)
                   match acc with [] => [] | _ => [rev acc] end).
  { intros [|a acc] H; constructor; [|constructor]. split.
    - intros E. apply (f_equal (@length ascii)) in E. rewrite length_rev in E.
      discriminate E.
    - rewrite forallb_forall in *. intros x Hx. apply H. now apply in_rev. }
  induction s as [|c s IH]; intros acc H; cbn [runs_from].
  - now apply Hacc.
  - destruct (cs c) eqn:Hc.
    + apply IH. cbn [forallb]. now rewrite Hc.
    + apply Forall_app. split; [now apply Hacc | now apply IH].
Qed.

Lemma match_here_Plus cs p s :
  match_here (Plus cs) p s =
  if 1 <=? run cs s
  then Some (mkState (rev (firstn (run cs s) s) ++ p) (skipn (run cs s) s) [])
  else None.
Proof.
  unfold match_here, Plus. cbn [m pre suf caps].
  now rewrite rep_greedy by reflexivity.
Qed.

(** A pattern that is one class repeated cuts the text into the maximal
    runs of the class. *)
Lemma scan_Plus cs s : forall p,
  let token := fun pc => match pc with Plain _ => [] | Matched w => [w] end in
  flat_map token (scan (Plus cs) p s 0) = runs cs s /\
  flat_map token (scan (Plus cs) p s (run cs s)) = runs cs (skipn (run cs s) s).
Proof.
  cbv zeta. unfold runs.
  induction s as [|c s IH]; intros p; [split; reflexivity|].
  match goal with |- ?A /\ _ => assert (H0 : A) end.
  { cbn [scan]. rewrite match_here_Plus. cbn [run].
    destruct (cs c) eqn:Hc.
    - cbn [Nat.leb suf skipn length].
      rewrite length_skipn.
      replace (S (length s) - (length s - run cs s)) with (S (run cs s))
        by (pose proof (run_le cs s); lia).
      cbn [flat_map app]. destruct (IH (c :: p)) as [_ ->].
      cbn [runs_from]. rewrite Hc. rewrite (runs_from_run cs s [c]). reflexivity.
    - cbn [Nat.leb flat_map app]. destruct (IH (c :: p)) as [-> _].
      cbn [runs_from]. now rewrite Hc. }
  split; [exact H0|].
  cbn [run]. destruct (cs c) eqn:Hc.
  - cbn [scan skipn]. apply IH.
  - cbn [skipn]. exact H0.
Qed.

Lemma match_all_Plus cs s : match_all (Plus cs) s = runs cs s.
Proof. unfold match_all. apply (scan_Plus cs s []). Qed.

Lemma match_all_Chr cs s : match_all (Chr cs) s = map (fun c => [c]) (filter cs s).
Proof.
  unfold match_all. rewrite scan_Chr.
  induction s as [|c s IH]; [reflexivity|].
  cbn [map flat_map filter]. rewrite IH. now destruct (cs c).
Qed.

(** Every match the scan returns is what one attempt consumed at some
    index of the text. *)
Lemma In_scan_Matched r w : forall s p k,
  In (Matched w) (scan r p s k) ->
  exists a b y,
    s = a ++ b /\ match_here r (rev a ++ p) b = Some y /\
    w = firstn (length b - length (suf y)) b.
Proof.
  induction s as [|c s IH]; intros p k H.
  - destruct k as [|k]; [|destruct H]. cbn [scan] in H.
    destruct (match_here r p []) as [y|] eqn:E; [|destruct H].
    destruct H as [[= <-] | []]. exists [], [], y. auto.
  - assert (Hrec : forall n, In (Matched w) (scan r (c :: p) s n) ->
              exists a b y, c :: s = a ++ b /\ match_here r (rev a ++ p) b = Some y /\
                            w = firstn (length b - length (suf y)) b).
    { intros n Hn. apply IH in Hn. destruct Hn as (a & b & y & -> & Hm & Hw).
      exists (c :: a), b, y. cbn [rev app]. rewrite <- app_assoc. auto. }
    destruct k as [|k]; [|cbn [scan] in H; now apply Hrec in H].
    cbn [scan] in H. destruct (match_here r p (c :: s)) as [y|] eqn:E.
    + cbv zeta in H. destruct H as [[= <-] | H].
      * exists [], (c :: s), y. auto.
      * destruct (length (c :: s) - length (suf y)) as [|n].
        -- destruct H as [H | H]; [discriminate H | now apply Hrec in H].
        -- now apply Hrec in H.
    + destruct H as [H | H]; [discriminate H | now apply Hrec in H].
Qed.

Lemma In_match_all r w s :
  In w (match_all r s) ->
  exists a b y,
    s = a ++ b /\ match_here r (rev a) b = Some y /\
    w = firstn (length b - length (suf y)) b.
Proof.
  unfold match_all. rewrite in_flat_map. intros ([c|w'] & Hin & Hw); [destruct Hw|].
  destruct Hw as [<- | []]. apply In_scan_Matched in Hin.
  destruct Hin as (a & b & y & E & Hm & Hw). rewrite app_nil_r in Hm.
  exists a, b, y. auto.
Qed.

Lemma firstn_consumed (w s' : list ascii) :
  firstn (length (w ++ s') - length s') (w ++ s') = w.
Proof.
  rewrite length_app. replace (length w + length s' - length s') with (length w) by lia.
  rewrite firstn_app, Nat.sub_diag, firstn_all. cbn [firstn]. apply app_nil_r.
Qed.

(** Every match is a piece of the text that the pattern matches there. *)
Lemma match_all_sound r text w :
  wf r = true -> In w (match_all r text) ->
  exists a b, text = a ++ w ++ b /\ Matches r (rev a) (w ++ b) (rev w ++ rev a) b.
Proof.
  intros Hwf H. apply In_match_all in H. destruct H as (a & b & y & -> & Hm & ->).
  apply match_here_Matches in Hm; [|exact Hwf].
  destruct (Matches_extends _ _ _ _ _ Hm) as (w & E & E').
  exists a, (suf y). rewrite E' in Hm. rewrite E in *. rewrite firstn_consumed. auto.
Qed.

Lemma skipn_run_length cs (s : list ascii) :
  length s - length (skipn (run cs s) s) = run cs s.
Proof. rewrite length_skipn. pose proof (run_le cs s). lia. Qed.

(** A pattern that ends with a class repeated takes the whole run of the
    class that follows what the rest of the pattern matched. *)
Lemma match_all_then_Plus r cs text w :
  wf r = true -> In w (match_all (r ;; Plus cs) text) ->
  exists a head rest,
    text = a ++ head ++ rest /\
    Matches r (rev a) (head ++ rest) (rev head ++ rev a) rest /\
    1 <= run cs rest /\ w = head ++ firstn (run cs rest) rest.
Proof.
  intros Hwf H. apply In_match_all in H. destruct H as (a & b & z & -> & Hm & ->).
  destruct (m_sound_complete r Hwf) as [Hs _].
  unfold match_here in Hm. cbn [m] in Hm. apply Hs in Hm.
  destruct Hm as (y & HM & Hk). cbn [pre suf] in HM.
  unfold Plus in Hk. cbn [m] in Hk.
  rewrite (@rep_greedy cs (suf y) 1 None (pre y) (fun p s => mkState p s (caps y)) eq_refl)
    in Hk.
  cbv zeta in Hk. cbn [cap_hi] in Hk.
  destruct (1 <=? run cs (suf y)) eqn:Hrun; [|discriminate Hk].
  injection Hk as <-. cbn [suf]. apply Nat.leb_le in Hrun.
  destruct (Matches_extends _ _ _ _ _ HM) as (head & E & E').
  exists a, head, (suf y). rewrite E' in HM. rewrite E in *.
  repeat split; try assumption.
  rewrite length_app, length_skipn.
  pose proof (run_le cs (suf y)) as Hle.
  replace (length head + length (suf y) - (length (suf y) - run cs (suf y)))
    with (length head + run cs (suf y)) by lia.
  rewrite firstn_app_2. reflexivity.
Qed.

Lemma marked_run_Chr c cs text w :
  In w (match_all (Chr (is_char c) ;; Plus cs) text) -> marked_run [c] cs text w.
Proof.
  intros H. apply match_all_then_Plus in H; [|reflexivity].
  destruct H as (a & head & rest & E & HM & Hrun & Hw).
  cbn [Matches] in HM. destruct HM as (c' & E' & _ & Hc).
  apply Ascii.eqb_eq in Hc. subst c'.
  change (c :: rest) with ([c] ++ rest) in E'. apply app_inv_tail in E'. subst head.
  exists a, rest. auto.
Qed.

Lemma marked_run_url text w :
  In w (match_all urlRegex text) ->
  exists scheme, In scheme url_schemes /\ marked_run scheme url_char text w.
Proof.
  intros H. apply match_all_then_Plus in H; [|reflexivity].
  destruct H as (a & head & rest & E & HM & Hrun & Hw).
  assert (Hhead : In head url_schemes).
  { cbn [Matches] in HM.
    destruct HM as [(p2 & s2 & (p1 & s1 & H1 & Hs) & H3) | H4].
    - apply Matches_Lit in H1, H3. destruct H1 as [E1 _]. destruct H3 as [E3 _].
      destruct Hs as [(c & Es & _ & Hc) | [_ Es]].
      + apply Ascii.eqb_eq in Hc. subst c. subst s1 s2.
        change (head ++ rest = str "https://" ++ rest) in E1.
        apply app_inv_tail in E1. subst head. right. left. reflexivity.
      + subst s1 s2. change (head ++ rest = str "http://" ++ rest) in E1.
        apply app_inv_tail in E1. subst head. left. reflexivity.
    - apply Matches_Lit in H4. destruct H4 as [E4 _].
      apply app_inv_tail in E4. subst head. right. right. left. reflexivity. }
  exists head. split; [exact Hhead|]. exists a, rest. auto.
Qed.

(** Every hashtag [extractSocialMediaEntities] returns is a [#] of the
    text followed by the longest run of letters, digits and underscores
    after it, one at least; every mention is the same after an [@]; every
    URL is [http://], [https://] or [www.] followed by the longest run of
    URL characters after it, one at least.  [tokenizeText] returns the same
    three lists. *)
Theorem extracted_entities_shape (text w : jsstring) :
  let entities := extractSocialMediaEntities (VString text) in
  (In w (e_hashtags entities) -> marked_run (str "#") tag_char text w) /\
  (In w (e_mentions entities) -> marked_run (str "@") tag_char text w) /\
  (In w (e_urls entities) ->
   exists scheme, In scheme url_schemes /\ marked_run scheme url_char text w) /\
  hashtags (tokenizeText (VString text)) = e_hashtags entities /\
  mentions (tokenizeText (VString text)) = e_mentions entities /\
  urls (tokenizeText (VString text)) = e_urls entities.
Proof.
  cbv zeta. destruct text as [|c s].
  - repeat split; intros [].
  - cbn [extractSocialMediaEntities tokenizeText e_hashtags e_mentions e_urls
         hashtags mentions urls].
    repeat split.
    + apply marked_run_Chr.
    + apply marked_run_Chr.
    + apply marked_run_url.
Qed.

Lemma digits_nonempty (ds : list ascii) : 1 <= length ds -> ds <> [].
Proof. destruct ds; [cbn; lia | discriminate]. Qed.

(** What [tokenizeText] returns as words, numbers and punctuation.  The
    words are the maximal runs of letters of the whole text, in order, so
    together they hold every letter of the text, those of its mentions,
    hashtags and URLs included; the punctuation marks are the characters
    of the text that are no letter, number character or white space, one
    string each, in order; every number is a run of digits, or two runs of
    digits around a dot. *)
Theorem tokenizeText_tokens (text : jsstring) :
  let tokens := tokenizeText (VString text) in
  words tokens = runs is_L text /\
  concat (words tokens) = filter is_L text /\
  Forall (fun w => w <> [] /\ forallb is_L w = true) (words tokens) /\
  punctuation tokens = map (fun c => [c]) (filter is_special text) /\
  Forall (fun w =>
            exists ds, ds <> [] /\ forallb is_digit ds = true /\
              (w = ds \/
               exists fs, fs <> [] /\ forallb is_digit fs = true /\
                          w = ds ++ str "." ++ fs))
         (numbers tokens).
Proof.
  cbv zeta.
  assert (Hwords : words (tokenizeText (VString text)) = runs is_L text).
  { destruct text as [|c s]; [reflexivity|]. apply match_all_Plus. }
  rewrite Hwords. split; [reflexivity|]. split; [apply (runs_from_concat is_L text [])|].
  split; [now apply runs_from_Forall|]. split.
  - destruct text as [|c s]; [reflexivity|]. apply match_all_Chr.
  - destruct text as [|c s]; [constructor|].
    cbn [tokenizeText numbers]. apply Forall_forall. intros w Hw.
    apply match_all_sound in Hw; [|reflexivity].
    destruct Hw as (a & b & _ & HM). unfold numberRegex, Plus in HM. cbn [Matches] in HM.
    destruct HM as (p1 & s1 & (ds & E1 & -> & Hds & Hlen & _) & Hopt).
    exists ds. split; [now apply digits_nonempty|]. split; [exact Hds|].
    destruct Hopt as [(p2 & s2 & (c0 & -> & -> & Hc0) & (fs & E2 & _ & Hfs & Hflen & _)) | [_ E2]].
    + right. exists fs. split; [now apply digits_nonempty|]. split; [exact Hfs|].
      apply Ascii.eqb_eq in Hc0. subst c0. subst s2.
      assert (E : w ++ b = (ds ++ str "." ++ fs) ++ b).
      { rewrite E1, <- !app_assoc. reflexivity. }
      now apply app_inv_tail in E.
    + left. subst s1. now apply app_inv_tail in E1.
Qed.

(** ** [extractSocialMediaEntities]: the hashtags and the mentions *)

Lemma match_here_marker marker cs p s :
  match_here (Chr (is_char marker) ;; Plus cs) p s =
  match s with
  | c :: s' =>
      if is_char marker c && (1 <=? run cs s')
      then Some (mkState (rev (firstn (run cs s') s') ++ c :: p) (skipn (run cs s') s') [])
      else None
  | [] => None
  end.
Proof.
  unfold match_here, Plus. cbn [m pre suf caps]. destruct s as [|c s']; [reflexivity|].
  destruct (is_char marker c); [|reflexivity]. cbn [andb].
  now rewrite rep_greedy by reflexivity.
Qed.

Lemma scan_marked marker cs s : cs marker = false -> forall p k,
  k <= run cs s ->
  flat_map (fun pc => match pc with Plain _ => [] | Matched w => [w] end)
           (scan (Chr (is_char marker) ;; Plus cs) p s k) = marked marker cs s.
Proof.
  intros Hm. induction s as [|c s IH]; intros p k Hk.
  - cbn [run] in Hk. replace k with 0 by lia. reflexivity.
  - destruct k as [|k].
    + cbn [scan]. rewrite match_here_marker. cbn [marked].
      destruct (is_char marker c && (1 <=? run cs s)) eqn:E.
      * cbn [suf length]. rewrite length_skipn.
        replace (S (length s) - (length s - run cs s)) with (S (run cs s))
          by (pose proof (run_le cs s); lia).
        cbn [flat_map firstn app]. now rewrite IH.
      * cbn [flat_map app]. rewrite IH by lia. reflexivity.
    + cbn [run] in Hk. destruct (cs c) eqn:Hc; [|lia].
      cbn [scan marked].
      replace (is_char marker c) with false.
      * cbn [andb app]. apply IH. lia.
      * symmetry. apply not_true_is_false. intros H.
        apply Ascii.eqb_eq in H. subst c. congruence.
Qed.

(** The hashtags [extractSocialMediaEntities] returns are, in the order of
    the text, one for every [#] that a letter, digit or underscore
    follows: the [#] and the longest run of such characters after it.  The
    mentions are the same for [@].  A [#] or [@] with no such character
    after it gives nothing. *)
Theorem extracted_hashtags_mentions (text : jsstring) :
  e_hashtags (extractSocialMediaEntities (VString text)) = marked "#" tag_char text /\
  e_mentions (extractSocialMediaEntities (VString text)) = marked "@" tag_char text.
Proof.
  destruct text as [|c s]; [split; reflexivity|].
  cbn [extractSocialMediaEntities e_hashtags e_mentions]. unfold match_all. split.
  - apply (@scan_marked "#"%char tag_char (c :: s) eq_refl [] 0). lia.
  - apply (@scan_marked "@"%char tag_char (c :: s) eq_refl [] 0). lia.
Qed.

(** ** [cleanString]: white space and what is kept *)

Lemma cleanString_steps c s o :
  cleanString (VString (c :: s)) o = convert_case (caseOption o) (strip o (c :: s)).
Proof. reflexivity. Qed.

Lemma hd_is_app f (l l' : list ascii) : l <> [] -> hd_is f (l ++ l') = hd_is f l.
Proof. destruct l; [congruence | reflexivity]. Qed.

Lemma normal_first s : normal true s = true -> hd_is is_space s = false.
Proof.
  destruct s as [|c s]; [reflexivity|]. cbn [normal hd_is].
  destruct (is_space c); [discriminate | reflexivity].
Qed.

Lemma normal_last s : forall b, normal b s = true -> hd_is is_space (rev s) = false.
Proof.
  induction s as [|c s IH]; intros b H; [reflexivity|].
  cbn [normal] in H. cbn [rev].
  destruct s as [|d s].
  - cbn [rev app hd_is]. destruct (is_space c); [|reflexivity].
    cbn [normal] in H. now rewrite andb_false_r in H.
  - rewrite hd_is_app.
    + destruct (is_space c).
      * apply andb_prop in H. destruct H as [_ H]. exact (IH _ H).
      * exact (IH _ H).
    + intros E. apply (f_equal (@length ascii)) in E. rewrite length_rev in E.
      discriminate E.
Qed.

Lemma normal_only_spaces s : forall b c,
  normal b s = true -> In c s -> is_space c = true -> c = " "%char.
Proof.
  induction s as [|d s IH]; intros b c H Hin Hc; [destruct Hin|].
  cbn [normal] in H. destruct Hin as [-> | Hin].
  - rewrite Hc in H. apply andb_prop in H. destruct H as [H _].
    apply andb_prop in H. destruct H as [_ H]. apply Ascii.eqb_eq in H. now subst c.
  - destruct (is_space d).
    + apply andb_prop in H. destruct H as [_ H]. exact (IH _ _ H Hin Hc).
    + exact (IH _ _ H Hin Hc).
Qed.

Lemma normal_no_two_spaces a : forall b c d t,
  normal b (a ++ c :: d :: t) = true -> is_space c = true -> is_space d = false.
Proof.
  induction a as [|x a IH]; intros b c d t H Hc.
  - cbn [app normal] in H. rewrite Hc in H.
    destruct (is_space d); [|reflexivity].
    apply andb_prop in H. destruct H as [_ H]. discriminate H.
  - cbn [app normal] in H. destruct (is_space x).
    + apply andb_prop in H. destruct H as [_ H]. exact (IH _ _ _ _ H Hc).
    + exact (IH _ _ _ _ H Hc).
Qed.

(** With [removeSpecial] off, whatever the case option, the white space of
    the result is in order: the result neither starts nor ends with white
    space, its only white-space character is the space, and no two spaces
    are side by side. *)
Theorem cleanString_spacing (v : value) (option : jsstring) :
  ascii_value v ->
  let out := cleanString v (mkOptions option false) in
  hd_is is_space out = false /\
  hd_is is_space (rev out) = false /\
  (forall c, In c out -> is_space c = true -> c = " "%char) /\
  (forall a c d t, out = a ++ c :: d :: t -> is_space c = true -> is_space d = false).
Proof.
  intros _. cbv zeta.
  assert (H : cleanString v (mkOptions option false) = [] \/
              normal true (cleanString v (mkOptions option false)) = true).
  { destruct v as [[|c s]|]; try (left; reflexivity).
    rewrite cleanString_keep_special.
    destruct (normal_after_first_step (c :: s)) as [E | E]; cbv zeta in E.
    - left. rewrite E.
      pose proof (convert_case_related option []) as H. now inversion H.
    - right. rewrite (normal_related (convert_case_related option _) true). exact E. }
  destruct H as [-> | H].
  - split; [reflexivity|]. split; [reflexivity|]. split.
    + intros c [].
    + intros [|x a] c d t E; discriminate E.
  - split; [exact (normal_first _ H)|].
    split; [exact (normal_last _ _ H)|].
    split; [intros c; exact (normal_only_spaces _ _ c H)|].
    intros a c d t E. rewrite E in H. exact (normal_no_two_spaces _ _ _ _ _ H).
Qed.

Lemma cleanString_spacing_witness :
  ascii_value (VString (str "  hello   wORLD, it's 4pm ")) /\
  hd_is is_space
    (cleanString (VString (str "  hello   wORLD, it's 4pm ")) (mkOptions (str "upper") false))
  = false.
Proof.
  split; [reflexivity|].
  apply (@cleanString_spacing (VString (str "  hello   wORLD, it's 4pm ")) (str "upper")).
  reflexivity.
Defined.

Lemma filter_squeeze f s : (forall c, is_space c = true -> f c = false) ->
  forall b, filter f (squeeze b s) = filter f s.
Proof.
  intros Hf. induction s as [|c s IH]; intros b; [reflexivity|].
  cbn [squeeze filter]. destruct (is_space c) eqn:Hc.
  - rewrite (Hf _ Hc). destruct b; [apply IH|].
    cbn [filter]. rewrite (Hf " "%char eq_refl). apply IH.
  - cbn [filter]. now rewrite IH.
Qed.

Lemma filter_drop_while f s : (forall c, is_space c = true -> f c = false) ->
  filter f (drop_while is_space s) = filter f s.
Proof.
  intros Hf. induction s as [|c s IH]; [reflexivity|].
  cbn [drop_while filter]. destruct (is_space c) eqn:Hc.
  - now rewrite (Hf _ Hc).
  - reflexivity.
Qed.

Lemma filter_trim_end f s : (forall c, is_space c = true -> f c = false) ->
  filter f (trim_end s) = filter f s.
Proof.
  intros Hf. induction s as [|c s IH]; [reflexivity|].
  cbn [trim_end filter]. rewrite <- IH.
  destruct (trim_end s) as [|d t].
  - destruct (is_space c) eqn:Hc; [now rewrite (Hf _ Hc) | reflexivity].
  - reflexivity.
Qed.

Lemma filter_kept_strip o s :
  filter (fun c => negb (is_space c)) (strip o s) = filter (kept o) s.
Proof.
  assert (Hk : forall f, (forall c, is_space c = true -> f c = false) ->
             filter f (trim (replace_all re_spaces (fun _ => str " ") s)) = filter f s).
  { intros f Hf. rewrite collapse_squeeze. unfold trim.
    now rewrite filter_trim_end, filter_drop_while, filter_squeeze. }
  unfold strip, kept. cbv zeta. destruct (removeSpecial o).
  - unfold re_special. rewrite replace_all_Chr_empty, filter_filter. cbn [andb].
    apply Hk. intros c ->. reflexivity.
  - cbn [andb negb]. rewrite Hk by (now intros c ->).
    apply filter_ext. intros c. now rewrite andb_true_r.
Qed.

Lemma length_trim_end s : length (trim_end s) <= length s.
Proof.
  induction s as [|c s IH]; [reflexivity|]. cbn [trim_end].
  destruct (trim_end s); [destruct (is_space c)|]; cbn [length] in *; lia.
Qed.

Lemma length_drop_while f s : length (drop_while f s) <= length s.
Proof.
  induction s as [|c s IH]; [reflexivity|]. cbn [drop_while].
  destruct (f c); cbn [length]; lia.
Qed.

Lemma length_squeeze s : forall b, length (squeeze b s) <= length s.
Proof.
  induction s as [|c s IH]; intros b; [reflexivity|]. cbn [squeeze].
  destruct (is_space c); [destruct b|]; cbn [length];
    [specialize (IH true) | specialize (IH true) | specialize (IH false)]; lia.
Qed.

Lemma length_strip o s : length (strip o s) <= length s.
Proof.
  assert (H : length (trim (replace_all re_spaces (fun _ => str " ") s)) <= length s).
  { rewrite collapse_squeeze. unfold trim.
    pose proof (length_trim_end (drop_while is_space (squeeze false s))).
    pose proof (length_drop_while is_space (squeeze false s)).
    pose proof (length_squeeze s false). lia. }
  unfold strip. cbv zeta. destruct (removeSpecial o); [|exact H].
  unfold re_special. rewrite replace_all_Chr_empty.
  pose proof (filter_length_le (fun c => negb (is_special c))
                (trim (replace_all re_spaces (fun _ => str " ") s))). lia.
Qed.

Lemma special_facts c :
  is_special (lower_char c) = is_special c.
Proof. destruct c as [[] [] [] [] [] [] [] []]; vm_compute; reflexivity. Qed.

Lemma same_letter_special c c' : same_letter c c' -> is_special c = is_special c'.
Proof.
  unfold same_letter. intros H. now rewrite <- (special_facts c), H, special_facts.
Qed.

Lemma Forall2_filter_same_letter (f : ascii -> bool) l l' :
  (forall c c', same_letter c c' -> f c = f c') ->
  Forall2 same_letter l l' -> Forall2 same_letter (filter f l) (filter f l').
Proof.
  intros Hf. induction 1 as [|c c' l l' Hc _ IH]; [constructor|].
  cbn [filter]. rewrite (Hf _ _ Hc). destruct (f c'); [constructor|]; assumption.
Qed.

Lemma same_letter_toLowerCase l l' :
  Forall2 same_letter l l' -> toLowerCase l = toLowerCase l'.
Proof.
  induction 1 as [|c c' l l' Hc _ IH]; [reflexivity|].
  cbn [toLowerCase map]. unfold same_letter in Hc. rewrite Hc. f_equal. exact IH.
Qed.

(** [cleanString] keeps the characters of the text that are no white
    space (and, with [removeSpecial], no special characters), in their
    order and up to their case; it adds nothing but spaces, its result is
    never longer than the text, and with [removeSpecial] it holds no
    special character. *)
Theorem cleanString_keeps (s : jsstring) (o : CleanOptions) :
  ascii_value (VString s) ->
  let out := cleanString (VString s) o in
  toLowerCase (filter (fun c => negb (is_space c)) out) = toLowerCase (filter (kept o) s) /\
  length out <= length s /\
  (removeSpecial o = true -> forallb (fun c => negb (is_special c)) out = true).
Proof.
  intros _. cbv zeta.
  destruct s as [|c s]; [split; [reflexivity | split; [apply Nat.le_refl | reflexivity]]|].
  rewrite cleanString_steps.
  pose proof (convert_case_related (caseOption o) (strip o (c :: s))) as Hrel.
  split; [|split].
  - rewrite <- filter_kept_strip. apply same_letter_toLowerCase.
    apply Forall2_filter_same_letter; [|exact Hrel].
    intros x y Hxy. now destruct (same_letter_space Hxy) as [-> _].
  - rewrite (Forall2_length Hrel). apply length_strip.
  - intros Ho.
    assert (Hs : forallb (fun c => negb (is_special c)) (strip o (c :: s)) = true).
    { unfold strip. cbv zeta. rewrite Ho. unfold re_special.
      rewrite replace_all_Chr_empty. apply forallb_filter. }
    revert Hs. generalize (strip o (c :: s)) (convert_case (caseOption o) (strip o (c :: s))) Hrel.
    intros t t' H. induction H as [|x y t' t Hxy _ IH]; [reflexivity|].
    cbn [forallb]. intros Hs. apply andb_prop in Hs. destruct Hs as [Hy Ht].
    now rewrite (same_letter_special Hxy), Hy, IH.
Qed.

Lemma cleanString_keeps_witness :
  ascii_value (VString (str "  Hello,   World! ")) /\
  length (cleanString (VString (str "  Hello,   World! ")) (mkOptions (str "title") true))
  <= length (str "  Hello,   World! ").
Proof.
  split; [reflexivity|].
  apply (@cleanString_keeps (str "  Hello,   World! ") (mkOptions (str "title") true)).
  reflexivity.
Defined.

(** ** [cleanString] with the default options *)

Lemma convert_case_none t : convert_case (str "none") t = t.
Proof. reflexivity. Qed.

(** Called with the text alone (the default options: case ['none'],
    [removeSpecial] off), [cleanString] returns the text with every run of
    white space turned into one space and the white space at both ends
    removed, and it is idempotent, on every string. *)
Theorem cleanString_default (s : jsstring) :
  cleanString (VString s) default_options = trim (squeeze false s) /\
  cleanString (VString (cleanString (VString s) default_options)) default_options =
  cleanString (VString s) default_options.
Proof.
  assert (H : forall t, cleanString (VString t) default_options =
                        trim (replace_all re_spaces (fun _ => str " ") t)).
  { intros [|c t]; [reflexivity|]. unfold default_options.
    now rewrite cleanString_keep_special, convert_case_none. }
  split; [now rewrite H, collapse_squeeze|].
  rewrite (H s). destruct (normal_after_first_step s) as [E | E]; cbv zeta in E.
  - rewrite E. reflexivity.
  - rewrite H. now apply first_step_fixed.
Qed.

(** ** [validateEmail]: what every accepted address has *)

Lemma email_char_facts c :
  email_char c = true -> (code c <? 128) = true /\ is_space c = false.
Proof. destruct c as [[] [] [] [] [] [] [] []]; vm_compute; auto; discriminate. Qed.

Lemma email_class_facts c :
  email_local (lower_char c) = email_local c /\
  email_domain (lower_char c) = email_domain c /\
  is_alpha (lower_char c) = is_alpha c /\
  is_char "@" (lower_char c) = is_char "@" c /\
  is_char "." (lower_char c) = is_char "." c.
Proof. destruct c as [[] [] [] [] [] [] [] []]; vm_compute; repeat split. Qed.

Lemma count_occ_none (f : ascii -> bool) (l : list ascii) x :
  forallb f l = true -> f x = false -> count_occ ascii_dec l x = 0.
Proof.
  intros Hl Hx. apply count_occ_not_In. intros Hin.
  rewrite forallb_forall in Hl. rewrite (Hl _ Hin) in Hx. discriminate Hx.
Qed.

Lemma forallb_weaken (f g : ascii -> bool) (l : list ascii) :
  (forall c, f c = true -> g c = true) -> forallb f l = true -> forallb g l = true.
Proof.
  intros Hfg. rewrite !forallb_forall. auto.
Qed.

(** An address [validateEmail] accepts holds exactly one [@], has 6
    characters or more, and is made of ASCII characters none of which is
    white space. *)
Theorem validateEmail_accepts_only (v : value) :
  validateEmail v = true ->
  exists s,
    v = VString s /\
    count_occ ascii_dec s "@"%char = 1 /\
    6 <= length s /\
    forallb (fun c => (code c <? 128) && negb (is_space c)) s = true.
Proof.
  destruct v as [[|c0 s0]|]; try discriminate. cbn [validateEmail].
  rewrite email_regex_shape.
  intros (l & d & t & E & [Hl1 Hl2] & Hl & Hd1 & Hd & [Ht1 Ht2] & Ht).
  exists (c0 :: s0). split; [reflexivity|]. rewrite E. clear E.
  split; [|split].
  - rewrite !count_occ_app.
    rewrite (count_occ_none email_local l "@"%char Hl eq_refl).
    rewrite (count_occ_none email_domain d "@"%char Hd eq_refl).
    rewrite (count_occ_none is_alpha t "@"%char Ht eq_refl).
    reflexivity.
  - rewrite !length_app. cbn [str list_ascii_of_string length]. lia.
  - assert (Hc : forall c, email_char c = true ->
                           (code c <? 128) && negb (is_space c) = true).
    { intros c Hc. destruct (email_char_facts c Hc) as [-> ->]. reflexivity. }
    assert (Hl' : forallb (fun c => (code c <? 128) && negb (is_space c)) l = true).
    { apply (forallb_weaken email_local); [|exact Hl].
      intros c H. apply Hc. unfold email_char. now rewrite H. }
    assert (Hd' : forallb (fun c => (code c <? 128) && negb (is_space c)) d = true).
    { apply (forallb_weaken email_domain); [|exact Hd].
      intros c H. apply Hc. unfold email_char. rewrite H. now rewrite orb_true_r. }
    assert (Ht' : forallb (fun c => (code c <? 128) && negb (is_space c)) t = true).
    { apply (forallb_weaken is_alpha); [|exact Ht].
      intros c H. apply Hc. unfold email_char. rewrite H. now rewrite !orb_true_r. }
    rewrite !forallb_app, Hl', Hd', Ht'. reflexivity.
Qed.

Lemma validateEmail_accepts_only_witness :
  exists s,
    VString (str "user@example.com") = VString s /\
    count_occ ascii_dec s "@"%char = 1 /\
    6 <= length s /\
    forallb (fun c => (code c <? 128) && negb (is_space c)) s = true.
Proof.
  apply (@validateEmail_accepts_only (VString (str "user@example.com"))).
  reflexivity.
Defined.

Lemma email_regex_respects : respects same_letter email_regex.
Proof.
  assert (H : forall f, (forall c, f (lower_char c) = f c) ->
                        respects_class same_letter f).
  { intros f Hf c c' Hc. unfold same_letter in Hc. now rewrite <- (Hf c), Hc, Hf. }
  cbn. repeat split; apply H; intros c; apply (email_class_facts c).
Qed.

Lemma validateEmail_related s s' :
  Forall2 same_letter s s' -> validateEmail (VString s) = validateEmail (VString s').
Proof.
  intros Hrel.
  pose proof (@match_here_rel same_letter same_letter_word email_regex [] [] s s'
                email_regex_respects (Forall2_nil _) Hrel) as H.
  destruct Hrel as [|c c' t t' Hc Ht]; [reflexivity|].
  cbn [validateEmail]. rewrite !test_anchored by reflexivity.
  destruct (match_here email_regex [] (c :: t)), (match_here email_regex [] (c' :: t'));
    cbn in H; tauto.
Qed.

(** [validateEmail] does not look at the case of the letters: an address
    of ASCII characters is accepted exactly when its upper-case form is,
    and exactly when its lower-case form is. *)
Theorem validateEmail_ignores_case (s : jsstring) :
  ascii_value (VString s) ->
  validateEmail (VString (toUpperCase s)) = validateEmail (VString s) /\
  validateEmail (VString (toLowerCase s)) = validateEmail (VString s).
Proof.
  intros _. split; apply validateEmail_related;
    [apply toUpperCase_related | apply toLowerCase_related].
Qed.

Lemma validateEmail_ignores_case_witness :
  ascii_value (VString (str "User@Example.com")) /\
  validateEmail (VString (toUpperCase (str "User@Example.com"))) =
  validateEmail (VString (str "User@Example.com")).
Proof.
  split; [reflexivity|].
  apply (@validateEmail_ignores_case (str "User@Example.com")). reflexivity.
Defined.
